(** * Cloudtrail2IAM: a shallow embedding of [cloudtrail2IAM.py]

    The script lists the objects of an S3 prefix, downloads every CloudTrail
    log object on a thread pool, and collects for every caller ARN the set of
    API actions it performed in the global dictionary [ALL_ACTIONS].

    Python strings are modelled by [string]; the text patterns the script
    searches for are ASCII, so searching them byte-wise in UTF-8 text agrees
    with searching them code point by code point.  Python sets of strings are
    [gset string]; the insertion-ordered dictionary [ALL_ACTIONS] is an
    association list with unique keys, in first-insertion order. *)

From Stdlib Require Import String Ascii List Bool Arith Lia Sorted Permutation.
From stdpp Require Import base option list gmap strings sorting.

Local Open Scope string_scope.
Local Open Scope list_scope.

Set Warnings "-register-all,-clear-no-such-hyp".

(** ** Python string operations used by the script *)

Module PyStr.

(** [s.startswith(p)] *)
Fixpoint startswith (p s : string) : bool :=
  match p, s with
  | EmptyString, _ => true
  | String _ _, EmptyString => false
  | String a p', String b s' => if Ascii.eqb a b then startswith p' s' else false
  end.

(** [sub in s] for two strings: some suffix of [s] starts with [sub]. *)
Fixpoint contains (sub s : string) : bool :=
  startswith sub s ||
  match s with
  | EmptyString => false
  | String _ s' => contains sub s'
  end.

(** [s.replace(old, new)] for a non-empty [old]: scan from the left, and at
    every position where [old] starts emit [new] and jump over the match.
    [skip] counts the characters of the current match still to jump over. *)
Fixpoint replace_from (old new : string) (skip : nat) (s : string) : string :=
  match s with
  | EmptyString => EmptyString
  | String c s' =>
      match skip with
      | S k => replace_from old new k s'
      | O =>
          if startswith old s
          then new +:+ replace_from old new (String.length old - 1) s'
          else String c (replace_from old new 0 s')
      end
  end.

Definition replace (old new s : string) : string := replace_from old new 0 s.

(** [s.split(sep)] for a one-character separator; never the empty list. *)
Fixpoint split (sep : ascii) (s : string) : list string :=
  match s with
  | EmptyString => [EmptyString]
  | String c s' =>
      if Ascii.eqb c sep then EmptyString :: split sep s'
      else match split sep s' with
           | h :: t => String c h :: t
           | [] => [String c EmptyString]
           end
  end.

(** [sep.join(parts)] *)
Fixpoint join (sep : string) (parts : list string) : string :=
  match parts with
  | [] => EmptyString
  | [p] => p
  | p :: rest => p +:+ sep +:+ join sep rest
  end.

(** One character of [s.lower()]: the letters A-Z move to a-z. *)
Definition lower_ascii (c : ascii) : ascii :=
  let n := nat_of_ascii c in
  if (65 <=? n)%nat && (n <=? 90)%nat then ascii_of_nat (n + 32) else c.

(** [s.lower()].  Outside ASCII only U+0130 lowers to text that has one of
    the letters of "digest" in it (an "i" followed by U+0307), and that
    never completes an occurrence of "digest", which is all the script
    asks of a lowered key. *)
Fixpoint lower (s : string) : string :=
  match s with
  | EmptyString => EmptyString
  | String c s' => String (lower_ascii c) (lower s')
  end.

End PyStr.

(** ** Identity normalisation: [fix_arn] *)

Definition fix_arn (arn : string) : string :=
  if PyStr.startswith "arn:aws:sts::" arn then
    let arn1 := PyStr.replace "arn:aws:sts::" "arn:aws:iam::" arn in
    let arn2 := PyStr.replace "assumed-role" "role" arn1 in
    PyStr.join "/" (take 2 (PyStr.split "/" arn2))
  else arn.

(** ** Exceptions and results *)

(** The Python exceptions the script can meet.  [ClientError] stands for
    whatever the S3 client raises when a listing or a download is refused. *)
Inductive exn : Type :=
  | KeyError (key : string)
  | TypeError
  | ValueError
  | AttributeError
  | JSONDecodeError
  | OSError
  | UnicodeDecodeError
  | ClientError (code : string).

Inductive result (A : Type) : Type :=
  | Ok (a : A)
  | Raise (e : exn).
Arguments Ok {A} a.
Arguments Raise {A} e.

Definition bind {A B : Type} (r : result A) (k : A -> result B) : result B :=
  match r with
  | Ok a => k a
  | Raise e => Raise e
  end.

Notation "'let*' x := r 'in' k" := (bind r (fun x => k))
  (at level 10, x name, r at level 100, k at level 200, only parsing).

(** ** Python dictionaries with string keys

    A dictionary is the list of its items in insertion order; keys are
    unique ([wf]).  Assigning to a key that is present keeps its position. *)

Module PyDict.

Definition dict (V : Type) : Type := list (string * V).

Fixpoint get {V : Type} (k : string) (d : dict V) : option V :=
  match d with
  | [] => None
  | (k', v) :: d' => if String.eqb k k' then Some v else get k d'
  end.

(** [d[k] = v] *)
Fixpoint set {V : Type} (k : string) (v : V) (d : dict V) : dict V :=
  match d with
  | [] => [(k, v)]
  | (k', v') :: d' =>
      if String.eqb k k' then (k', v) :: d' else (k', v') :: set k v d'
  end.

Definition keys {V : Type} (d : dict V) : list string := map fst d.

Definition wf {V : Type} (d : dict V) : Prop := NoDup (keys d).

End PyDict.

(** ** Values produced by [json.load] *)

Inductive json : Type :=
  | JNull
  | JBool (b : bool)
  | JNum (literal : string)
  | JStr (s : string)
  | JArr (items : list json)
  | JObj (fields : PyDict.dict json).

Module Py.

Definition is_str (s : string) (v : json) : bool :=
  match v with
  | JStr s' => String.eqb s s'
  | _ => false
  end.

(** [k in v]: key membership in a dict, element membership in a list,
    substring test in a str; the other values are not iterable. *)
Definition contains (k : string) (v : json) : result bool :=
  match v with
  | JObj fields => Ok (bool_decide (is_Some (PyDict.get k fields)))
  | JArr items => Ok (existsb (is_str k) items)
  | JStr s => Ok (PyStr.contains k s)
  | _ => Raise TypeError
  end.

(** [v[k]] with a string [k]. *)
Definition getitem (v : json) (k : string) : result json :=
  match v with
  | JObj fields =>
      match PyDict.get k fields with
      | Some x => Ok x
      | None => Raise (KeyError k)
      end
  | _ => Raise TypeError
  end.

(** [v.get(k, default)] *)
Definition get (v : json) (k : string) (default : json) : result json :=
  match v with
  | JObj fields =>
      match PyDict.get k fields with
      | Some x => Ok x
      | None => Ok default
      end
  | _ => Raise AttributeError
  end.

Fixpoint chars (s : string) : list json :=
  match s with
  | EmptyString => []
  | String c s' => JStr (String c EmptyString) :: chars s'
  end.

(** The items a [for] loop over [v] visits. *)
Definition iter (v : json) : result (list json) :=
  match v with
  | JArr items => Ok items
  | JObj fields => Ok (map JStr (PyDict.keys fields))
  | JStr s => Ok (chars s)
  | _ => Raise TypeError
  end.

(** [fix_arn(v)]: [v.startswith] exists on str only. *)
Definition fix_arn (v : json) : result string :=
  match v with
  | JStr s => Ok (fix_arn s)
  | _ => Raise AttributeError
  end.

(** [v.split(".")[0]] *)
Definition split_dot_0 (v : json) : result string :=
  match v with
  | JStr s => Ok (hd EmptyString (PyStr.split "." s))
  | _ => Raise AttributeError
  end.

(** [s + v] for a str [s]. *)
Definition add_str (s : string) (v : json) : result string :=
  match v with
  | JStr s' => Ok (s +:+ s')
  | _ => Raise TypeError
  end.

End Py.

(** ** The aggregation index [ALL_ACTIONS] *)

Abbreviation index := (PyDict.dict (gset string)).

(** Lines 45-48, run under the semaphore: one atomic step on the index. *)
Definition merge (idx : index) (arn action : string) : index :=
  match PyDict.get arn idx with
  | None => PyDict.set arn {[ action ]} idx
  | Some actions =>
      if bool_decide (actions = ∅)
      then PyDict.set arn {[ action ]} idx
      else PyDict.set arn (actions ∪ {[ action ]}) idx
  end.

Definition merge_all (idx : index) (pairs : list (string * string)) : index :=
  fold_left (fun i p => merge i (fst p) (snd p)) pairs idx.

(** ** Record extraction *)

(** Lines 41-43 for one record: the (identity, action) pair handed to the
    merge, [None] when the record is passed over, or the exception raised. *)
Definition record_action (record : json) : result (option (string * string)) :=
  let* has_ui := Py.contains "userIdentity" record in
  if (has_ui : bool) then
    let* ui := Py.getitem record "userIdentity" in
    let* has_arn := Py.contains "arn" ui in
    if (has_arn : bool) then
      let* raw := Py.getitem ui "arn" in
      let* arn := Py.fix_arn raw in
      let* source := Py.getitem record "eventSource" in
      let* service := Py.split_dot_0 source in
      let* name := Py.getitem record "eventName" in
      let* action := Py.add_str (service +:+ " - ") name in
      Ok (Some (arn, action))
    else Ok None
  else Ok None.

(** The loop of lines 40-48 over the records of one document: the merges it
    issues, in order, and the exception that ends it early, if any. *)
Fixpoint scan_records (records : list json) : list (string * string) * option exn :=
  match records with
  | [] => ([], None)
  | r :: rest =>
      match record_action r with
      | Raise e => ([], Some e)
      | Ok None => scan_records rest
      | Ok (Some p) => let '(ps, e) := scan_records rest in (p :: ps, e)
      end
  end.

(** ** The outside world

    What the script reads from outside: the pages of the S3 listing for the
    bucket and prefix of the command line (a page may lack ['Contents']), the
    bytes [download_file] stores for a key, the text [gzip.open(.., 'rt')]
    reads from such bytes, and the value [json.load] builds from such text
    ([None] when it raises [JSONDecodeError]). *)

Record ObjectRef : Type := { Key : string; Size : Z }.

Record world : Type := {
  paginate : result (list (option (list ObjectRef)));
  download_file : string -> result string;
  gzip_read_text : string -> result string;
  json_loads : string -> option json
}.

(** Lines 38-48 on the contents of one downloaded file. *)
Definition extract_actions_from_log_file (w : world) (content : string)
  : list (string * string) * option exn :=
  match gzip_read_text w content with
  | Raise e => ([], Some e)
  | Ok text =>
      match json_loads w text with
      | None => ([], Some JSONDecodeError)
      | Some data =>
          match (let* records := Py.get data "Records" (JArr []) in Py.iter records) with
          | Raise e => ([], Some e)
          | Ok records => scan_records records
          end
      end
  end.

(** [get_all_keys]: the ['Contents'] of every page, in order.  A page request
    that fails raises out of the loop and the list built so far is lost. *)
Definition get_all_keys (w : world) : result (list ObjectRef) :=
  let* pages := paginate w in
  Ok (concat (map (default []) pages)).

(** ** One worker task *)

(** The steps of a worker that other workers or the caller can observe:
    a download request, and a merge into [ALL_ACTIONS] under the semaphore. *)
Inductive op : Type :=
  | Download (key : string)
  | Merge (arn action : string).

(** What a call of [process_log_object] does: its steps in order, and the
    exception it ends with, if any. *)
Record task : Type := { ops : list op; exc : option exn }.

(** [download_log_file]: the bytes stored for [key], or the client's
    exception. *)
Definition download_log_file (w : world) (key : string) : result string :=
  download_file w key.

(** The guard of line 67. *)
Definition skipped (log_key : string) : bool :=
  negb (PyStr.contains ".json.gz" log_key)
  || PyStr.contains "digest" (PyStr.lower log_key).

Definition process_log_object (w : world) (log_obj : ObjectRef) : task :=
  let log_key := Key log_obj in
  if skipped log_key then {| ops := []; exc := None |}
  else
    match download_log_file w log_key with
    | Raise e => {| ops := [Download log_key]; exc := Some e |}
    | Ok content =>
        let '(pairs, e) := extract_actions_from_log_file w content in
        {| ops := Download log_key :: map (fun p => Merge (fst p) (snd p)) pairs;
           exc := e |}
    end.

Definition downloads (l : list op) : list string :=
  flat_map (fun o => match o with Download k => [k] | Merge _ _ => [] end) l.

Definition merges (l : list op) : list (string * string) :=
  flat_map (fun o => match o with Download _ => [] | Merge a b => [(a, b)] end) l.

(** ** The thread pool of [main]

    Every listed object becomes a task, numbered by its position in
    [futures].  [todo] holds for each task the steps it has still to take,
    [None] once it has returned or raised; [finished] is the order in which
    the futures complete; [trace] is the history of the steps taken. *)

Record pool : Type := {
  ALL_ACTIONS : index;
  todo : list (option (list op));
  finished : list nat;
  trace : list op
}.

Definition apply_op (idx : index) (o : op) : index :=
  match o with
  | Download _ => idx
  | Merge arn action => merge idx arn action
  end.

(** Task [i] takes its next step. *)
Definition step (i : nat) (st : pool) : pool :=
  match todo st !! i with
  | Some (Some (o :: rest)) =>
      {| ALL_ACTIONS := apply_op (ALL_ACTIONS st) o;
         todo := <[i := Some rest]> (todo st);
         finished := finished st;
         trace := trace st ++ [o] |}
  | Some (Some []) =>
      {| ALL_ACTIONS := ALL_ACTIONS st;
         todo := <[i := None]> (todo st);
         finished := finished st ++ [i];
         trace := trace st |}
  | _ => st
  end.

(** A schedule names the task that moves at each instant; any interleaving
    of the tasks is a schedule, those of a pool of [--threads] workers
    among them. *)
Definition exec (sched : list nat) (st : pool) : pool :=
  fold_left (fun s i => step i s) sched st.

(** Task [i] runs until it is finished. *)
Definition finish (i : nat) (st : pool) : pool :=
  match todo st !! i with
  | Some (Some rest) => Nat.iter (S (length rest)) (step i) st
  | _ => st
  end.

(** Leaving the [with] block waits for every task still running or queued. *)
Definition drain (st : pool) : pool :=
  fold_left (fun s i => finish i s) (seq 0 (length (todo st))) st.

Definition submit (tasks : list task) : pool :=
  {| ALL_ACTIONS := []; todo := map (fun t => Some (ops t)) tasks;
     finished := []; trace := [] |}.

Definition run_pool (sched : list nat) (tasks : list task) : pool :=
  drain (exec sched (submit tasks)).

(** What the pool leaves to chance: the interleaving of the workers'
    steps, how many futures are already finished when [as_completed] is
    entered, and the order in which the set of those futures is iterated. *)
Record timing : Type := {
  steps : list nat;
  already_done : nat;
  set_order : list nat
}.

(** [as_completed(futures)]: the futures already finished when it is
    entered are yielded first, in the iteration order of the set that holds
    them ([set_order]; those it does not name follow in completion order),
    then the others as they finish. *)
Definition as_completed (already_done : nat) (set_order finished : list nat)
  : list nat :=
  let done := take already_done finished in
  let first := filter (fun i => i ∈ done) (remove_dups set_order) in
  first ++ filter (fun i => i ∉ first) done ++ drop already_done finished.

(** The loop of lines 94-95: [future.result()] re-raises the exception of
    the first yielded future that has one. *)
Fixpoint first_exception (tasks : list task) (completed : list nat) : option exn :=
  match completed with
  | [] => None
  | i :: rest =>
      match tasks !! i with
      | Some {| exc := Some e |} => Some e
      | _ => first_exception tasks rest
      end
  end.

(** ** The report of [main] *)

(** [sorted(actions)] on a set of strings. *)
Definition py_sorted (actions : gset string) : list string :=
  merge_sort String.le (elements actions).

(** [if target_name:] holds for a string that is given and not empty. *)
Definition truthy (target_name : option string) : option string :=
  match target_name with
  | Some EmptyString => None
  | other => other
  end.

(** The part of memory the report touches: the dictionary objects, by
    address, and the global name [ALL_ACTIONS] holding one address. *)
Record memory : Type := { heap : list index; global_ALL_ACTIONS : nat }.

Definition deref (m : memory) : index := default [] (heap m !! global_ALL_ACTIONS m).

(** Lines 98-103: a new dictionary receives the matching items and the
    global name is bound to it. *)
Definition filter_by_name (target_name : option string) (m : memory) : memory :=
  match truthy target_name with
  | None => m
  | Some name =>
      let all_actions_temp :=
        fold_left
          (fun tmp item =>
             if PyStr.contains name (fst item)
             then PyDict.set (fst item) (snd item) tmp else tmp)
          (deref m) [] in
      {| heap := heap m ++ [all_actions_temp];
         global_ALL_ACTIONS := length (heap m) |}
  end.

(** Lines 105-109: the lines printed for one identity. *)
Definition print_entry (item : string * gset string) : list string :=
  ("Actions performed by " +:+ fst item)
  :: map (fun action => "- " +:+ action) (py_sorted (snd item)).

Definition report (target_name : option string) (m : memory) : list string * memory :=
  let m' := filter_by_name target_name m in
  (flat_map print_entry (deref m'), m').

(** ** [main] *)

Record run : Type := {
  outcome : result (list string);
  workers : pool;
  after : memory
}.

(** [main] from line 89 on, for the parsed arguments [--threads] and
    [--filter-name] and a client for the bucket: the listing, then the
    pool, whose constructor raises [ValueError] for a thread count that is
    not positive, then the loop over [as_completed], then the report. *)
Definition main (w : world) (threads : Z) (filter_name : option string)
    (t : timing) : run :=
  match get_all_keys w with
  | Raise e =>
      {| outcome := Raise e; workers := submit [];
         after := {| heap := [[]]; global_ALL_ACTIONS := 0 |} |}
  | Ok logs_list =>
      if (threads <=? 0)%Z then
        {| outcome := Raise ValueError; workers := submit [];
           after := {| heap := [[]]; global_ALL_ACTIONS := 0 |} |}
      else
        let tasks := map (process_log_object w) logs_list in
        let st := run_pool (steps t) tasks in
        let m := {| heap := [ALL_ACTIONS st]; global_ALL_ACTIONS := 0 |} in
        match first_exception tasks
                (as_completed (already_done t) (set_order t) (finished st)) with
        | Some e => {| outcome := Raise e; workers := st; after := m |}
        | None =>
            let '(lines, m') := report filter_name m in
            {| outcome := Ok lines; workers := st; after := m' |}
        end
  end.

(** ** Vocabulary of the statements *)

(** [sep] does not occur in [s]. *)
Definition no_char (sep : ascii) (s : string) : Prop :=
  forall pre post, s <> pre +:+ String sep post.

(** The actions a list of (identity, action) pairs holds for one identity. *)
Definition labels_for (identity : string) (pairs : list (string * string)) : gset string :=
  list_to_set (map snd (filter (fun p => fst p = identity) pairs)).

(** [sub] occurs in [s]. *)
Definition occurs_in (sub s : string) : Prop :=
  exists pre post, s = pre +:+ sub +:+ post.

(** [s.endswith(p)] *)
Fixpoint endswith (p s : string) : bool :=
  String.eqb p s ||
  match s with
  | EmptyString => false
  | String _ s' => endswith p s'
  end.

(** [s[n:]] *)
Fixpoint drop_chars (n : nat) (s : string) : string :=
  match n, s with
  | O, _ => s
  | S _, EmptyString => EmptyString
  | S k, String _ s' => drop_chars k s'
  end.

(** [s.replace(old, new, 1)]: only the first occurrence is replaced. *)
Fixpoint replace_first (old new s : string) : string :=
  match s with
  | EmptyString => EmptyString
  | String c s' =>
      if PyStr.startswith old s
      then new +:+ drop_chars (String.length old) s
      else String c (replace_first old new s')
  end.

(** [old] occurs at most once in [s]: after its first occurrence it does
    not occur again. *)
Fixpoint at_most_once (old s : string) : bool :=
  match s with
  | EmptyString => true
  | String _ s' =>
      if PyStr.startswith old s
      then negb (PyStr.contains old (drop_chars (String.length old) s))
      else at_most_once old s'
  end.

(** The normaliser as the specification words it: the leading token-service
    prefix gives way to the IAM prefix, the resource-type marker
    "assumed-role" to "role", and the first two "/"-separated segments are
    kept. *)
Definition fix_arn_as_specified (arn : string) : string :=
  if PyStr.startswith "arn:aws:sts::" arn then
    let arn1 := "arn:aws:iam::" +:+ drop_chars 13 arn in
    let arn2 := replace_first "assumed-role" "role" arn1 in
    PyStr.join "/" (take 2 (PyStr.split "/" arn2))
  else arn.

(** The key filter as the specification words it: a key is passed over when
    it does not end in ".json.gz" or names a digest file. *)
Definition skipped_as_specified (log_key : string) : bool :=
  negb (endswith ".json.gz" log_key)
  || PyStr.contains "digest" (PyStr.lower log_key).

(** The field [userIdentity.arn] of a record, when the record and its
    [userIdentity] are objects that have it. *)
Definition arn_of (record : json) : option json :=
  match record with
  | JObj fields =>
      match PyDict.get "userIdentity" fields with
      | Some (JObj user) => PyDict.get "arn" user
      | _ => None
      end
  | _ => None
  end.

Definition field (name : string) (record : json) : option json :=
  match record with
  | JObj fields => PyDict.get name fields
  | _ => None
  end.

(** The text before the first "." of [s]. *)
Definition before_dot (s : string) : string := hd EmptyString (PyStr.split "." s).

(** The pair a record stands for, read off its fields: the normalised
    identity and the label "<service> - <eventName>". *)
Definition pair_of (record : json) : option (string * string) :=
  match arn_of record, field "eventSource" record, field "eventName" record with
  | Some (JStr raw), Some (JStr source), Some (JStr name) =>
      Some (fix_arn raw, before_dot source +:+ " - " +:+ name)
  | _, _, _ => None
  end.

(** The order in which the loop of [main] sees the futures of [tasks]. *)
Definition yielded (t : timing) (tasks : list task) : list nat :=
  as_completed (already_done t) (set_order t)
    (finished (run_pool (steps t) tasks)).

(** The steps a task has still to take. *)
Definition remaining (t : option (list op)) : list op := default [] t.

(** What holds of the pool at every instant, for the tasks [all] submitted:
    the index is the result of the merges taken so far, the steps taken and
    the steps still to take make up the steps of the tasks, and the futures
    completed are the tasks with nothing left to do. *)
Record pool_inv (all : list (list op)) (st : pool) : Prop := {
  inv_length : length (todo st) = length all;
  inv_index : ALL_ACTIONS st = merge_all [] (merges (trace st));
  inv_trace : trace st ++ concat (map remaining (todo st)) ≡ₚ concat all;
  inv_finished : forall i, i ∈ finished st <-> todo st !! i = Some None;
  inv_nodup : NoDup (finished st)
}.

(** The records of the document behind a listed object, when the object is
    eligible and its download, decompression and decoding succeed. *)
Definition records_of (w : world) (log_obj : ObjectRef) : list json :=
  if skipped (Key log_obj) then []
  else
    match download_log_file w (Key log_obj) with
    | Raise _ => []
    | Ok content =>
        match gzip_read_text w content with
        | Raise _ => []
        | Ok text =>
            match json_loads w text with
            | None => []
            | Some data =>
                match (let* records := Py.get data "Records" (JArr []) in
                       Py.iter records) with
                | Raise _ => []
                | Ok records => records
                end
            end
        end
    end.

(** ** Sample inputs *)

Definition alice_record : json :=
  JObj [("eventSource", JStr "s3.amazonaws.com"); ("eventName", JStr "GetObject");
        ("userIdentity", JObj [("arn", JStr "arn:aws:iam::1:user/alice")])].



(** A run in which [as_completed] is entered before any future is done,
    so that the futures are yielded in completion order. *)
Definition in_order (sched : list nat) : timing :=
  {| steps := sched; already_done := 0; set_order := [] |}.

(** A record whose identity is the empty string. *)
Definition anonymous_record : json :=
  JObj [("eventSource", JStr "s3.amazonaws.com"); ("eventName", JStr "GetObject");
        ("userIdentity", JObj [("arn", JStr "")])].

(** A store whose objects hold their own JSON text uncompressed; "missing"
    keys cannot be downloaded, and the decoder knows a handful of texts. *)
Definition sample_world (listing : list ObjectRef) : world :=
  {| paginate := Ok [Some listing];
     download_file := fun key =>
       if PyStr.contains "missing" key then Raise (ClientError "404")
       else Ok key;
     gzip_read_text := fun content => Ok content;
     json_loads := fun text =>
       if PyStr.contains "broken" text then None
       else if PyStr.contains "array" text then Some (JArr [])
       else if PyStr.contains "empty" text then Some (JObj [])
       else if PyStr.contains "anonymous" text
            then Some (JObj [("Records", JArr [anonymous_record])])
       else Some (JObj [("Records", JArr [alice_record])]) |}.

(** * Properties *)

(** ** Strings *)

Section strings.

Lemma startswith_spec p s :
  PyStr.startswith p s = true <-> exists rest, s = p +:+ rest.
Proof.
  revert s. induction p as [|a p IH]; intros s; simpl.
  - split; [intros _; by exists s | done].
  - destruct s as [|b s]; simpl.
    + split; [done | intros [rest H]; discriminate H].
    + destruct (Ascii.eqb_spec a b) as [->|Hne].
      * rewrite IH. split; intros [rest H]; exists rest; [by rewrite H | by inversion H].
      * split; [done | intros [rest H]; inversion H; congruence].
Qed.

Lemma contains_spec sub s :
  PyStr.contains sub s = true <-> exists pre post, s = pre +:+ sub +:+ post.
Proof.
  induction s as [|c s IH].
  - cbn [PyStr.contains]. rewrite orb_false_r, startswith_spec. split.
    + intros [rest H]. by exists EmptyString, rest.
    + intros [[|a pre] [post H]]; [by exists post | discriminate H].
  - cbn [PyStr.contains]. rewrite orb_true_iff, startswith_spec, IH. split.
    + intros [[rest H] | (pre & post & H)].
      * by exists EmptyString, rest.
      * exists (String c pre), post. simpl. by rewrite H.
    + intros ([|a pre] & post & H).
      * left. by exists post.
      * right. exists pre, post. simpl in H. by inversion H.
Qed.

Lemma append_assoc (s1 s2 s3 : string) : (s1 +:+ s2) +:+ s3 = s1 +:+ s2 +:+ s3.
Proof.
  induction s1 as [|a s1 IH]; [done |].
  change (String a ((s1 +:+ s2) +:+ s3) = String a (s1 +:+ s2 +:+ s3)).
  by rewrite IH.
Qed.

Lemma split_nonempty sep s : PyStr.split sep s <> [].
Proof.
  destruct s as [|c s]; simpl; [done |].
  destruct (Ascii.eqb c sep); [done |]. by destruct (PyStr.split sep s).
Qed.


End strings.

(** ** Dictionaries *)

Module PyDictFacts.
Import PyDict.

Section facts.
Context {V : Type}.
Implicit Types (d : dict V) (k : string) (v : V).

Lemma get_set_eq k v d : get k (set k v d) = Some v.
Proof.
  induction d as [|[k' v'] d IH]; simpl.
  - by rewrite String.eqb_refl.
  - destruct (String.eqb_spec k k') as [->|Hne]; simpl.
    + by rewrite String.eqb_refl.
    + by destruct (String.eqb_spec k k').
Qed.

Lemma get_set_ne k k' v d : k <> k' -> get k' (set k v d) = get k' d.
Proof.
  intros Hne. induction d as [|[k0 v0] d IH]; simpl.
  - by destruct (String.eqb_spec k' k); [subst |].
  - destruct (String.eqb_spec k k0) as [->|Hne0]; simpl.
    + by destruct (String.eqb_spec k' k0); [subst |].
    + by rewrite IH.
Qed.

Lemma set_set k v v' d : set k v (set k v' d) = set k v d.
Proof.
  induction d as [|[k0 v0] d IH]; simpl.
  - by rewrite String.eqb_refl.
  - destruct (String.eqb_spec k k0) as [->|Hne]; simpl.
    + by rewrite String.eqb_refl.
    + destruct (String.eqb_spec k k0); [done |]. by rewrite IH.
Qed.

Lemma set_fresh k v d : get k d = None -> set k v d = d ++ [(k, v)].
Proof.
  induction d as [|[k0 v0] d IH]; simpl; [done |].
  destruct (String.eqb_spec k k0); [done |]. intros H. by rewrite IH.
Qed.

Lemma get_None_keys k d : get k d = None <-> k ∉ keys d.
Proof.
  unfold keys. induction d as [|[k0 v0] d IH]; simpl.
  - split; [intros _; apply not_elem_of_nil | done].
  - rewrite not_elem_of_cons. destruct (String.eqb_spec k k0); [|tauto].
    split; [done | tauto].
Qed.

Lemma keys_set_present k v d : k ∈ keys d -> keys (set k v d) = keys d.
Proof.
  unfold keys. induction d as [|[k0 v0] d IH]; simpl.
  - by intros ?%elem_of_nil.
  - destruct (String.eqb_spec k k0) as [->|Hne]; simpl; [done |].
    intros [?|?]%elem_of_cons; [done |]. by rewrite IH.
Qed.

Lemma wf_set k v d : wf d -> wf (set k v d).
Proof.
  unfold wf. intros Hwf. destruct (get k d) as [v0|] eqn:Hget.
  - rewrite keys_set_present; [done |].
    destruct (decide (k ∈ keys d)) as [|Hn]; [done |].
    apply get_None_keys in Hn. congruence.
  - rewrite (set_fresh _ _ _ Hget). unfold keys. rewrite map_app. simpl.
    apply NoDup_app. split_and!; [done | | apply NoDup_singleton].
    intros x Hx ->%list_elem_of_singleton. by apply get_None_keys in Hget.
Qed.

Lemma get_Some_elem_of k v d : get k d = Some v -> (k, v) ∈ d.
Proof.
  induction d as [|[k0 v0] d IH]; simpl; [done |].
  destruct (String.eqb_spec k k0) as [->|Hne].
  - intros [= ->]. apply elem_of_cons. by left.
  - intros H. apply elem_of_cons. right. by apply IH.
Qed.

Lemma elem_of_get k v d : wf d -> (k, v) ∈ d -> get k d = Some v.
Proof.
  unfold wf, keys. induction d as [|[k0 v0] d IH]; simpl.
  - by intros _ ?%elem_of_nil.
  - intros [Hk Hd]%NoDup_cons [[= -> ->]|Hin]%elem_of_cons.
    + by rewrite String.eqb_refl.
    + destruct (String.eqb_spec k k0) as [->|Hne]; [|by apply IH].
      exfalso. apply Hk. apply list_elem_of_fmap. by exists (k0, v).
Qed.

End facts.
End PyDictFacts.

(** ** The merge *)

Section merge_facts.
Import PyDict PyDictFacts.
Implicit Types (idx : index) (pairs : list (string * string)).

Lemma get_merge_eq idx arn action :
  get arn (merge idx arn action)
  = Some (default ∅ (get arn idx) ∪ {[ action ]}).
Proof.
  unfold merge. destruct (get arn idx) as [s|] eqn:Hget; simpl.
  - case_bool_decide as Hs; rewrite get_set_eq; [subst s |]; f_equal; set_solver.
  - rewrite get_set_eq. f_equal. set_solver.
Qed.

Lemma get_merge_ne idx arn action k :
  arn <> k -> get k (merge idx arn action) = get k idx.
Proof.
  intros Hne. unfold merge.
  destruct (get arn idx) as [s|]; [case_bool_decide |]; by rewrite get_set_ne.
Qed.

Lemma merge_as_set idx arn action :
  merge idx arn action
  = set arn (default ∅ (get arn idx) ∪ {[ action ]}) idx.
Proof.
  unfold merge. destruct (get arn idx) as [s|]; simpl.
  - case_bool_decide as Hs; [subst s |]; f_equal; set_solver.
  - f_equal. set_solver.
Qed.

Lemma merge_idem idx arn action :
  merge (merge idx arn action) arn action = merge idx arn action.
Proof.
  rewrite (merge_as_set (merge _ _ _)), get_merge_eq. simpl.
  rewrite merge_as_set, set_set. f_equal. set_solver.
Qed.

Lemma wf_merge idx arn action : wf idx -> wf (merge idx arn action).
Proof. rewrite merge_as_set. apply wf_set. Qed.

Lemma wf_merge_all pairs idx : wf idx -> wf (merge_all idx pairs).
Proof.
  revert idx. induction pairs as [|p pairs IH]; intros idx H; [done |].
  apply IH. by apply wf_merge.
Qed.

Lemma merge_all_app idx pairs1 pairs2 :
  merge_all idx (pairs1 ++ pairs2) = merge_all (merge_all idx pairs1) pairs2.
Proof. apply fold_left_app. Qed.

Lemma labels_for_cons k p pairs :
  labels_for k (p :: pairs)
  = (if decide (fst p = k) then {[ snd p ]} else ∅) ∪ labels_for k pairs.
Proof.
  unfold labels_for. rewrite filter_cons. case_decide; simpl; set_solver.
Qed.

(** What the index holds for one identity after a series of merges. *)
Lemma get_merge_all pairs idx k :
  get k (merge_all idx pairs)
  = if decide (labels_for k pairs = ∅) then get k idx
    else Some (default ∅ (get k idx) ∪ labels_for k pairs).
Proof.
  revert idx. induction pairs as [|[a l] pairs IH]; intros idx.
  - by rewrite decide_True.
  - change (merge_all idx ((a, l) :: pairs)) with (merge_all (merge idx a l) pairs).
    rewrite IH, labels_for_cons. simpl. destruct (decide (a = k)) as [->|Hne].
    + rewrite get_merge_eq. simpl.
      rewrite (decide_False (P := _ ∪ _ = ∅)); [|set_solver].
      case_decide as He; f_equal; [rewrite He|]; set_solver.
    + rewrite get_merge_ne by done. rewrite (left_id_L ∅ (∪)). done.
Qed.

Lemma labels_for_perm k pairs1 pairs2 :
  pairs1 ≡ₚ pairs2 -> labels_for k pairs1 = labels_for k pairs2.
Proof. intros H. unfold labels_for. by rewrite H. Qed.

Lemma elem_of_labels_for k a pairs : a ∈ labels_for k pairs <-> (k, a) ∈ pairs.
Proof.
  unfold labels_for. rewrite elem_of_list_to_set, list_elem_of_fmap. split.
  - intros ([k' a'] & -> & [Hk Hin]%list_elem_of_filter). simpl in *. by subst.
  - intros Hin. exists (k, a). split; [done |]. by apply list_elem_of_filter.
Qed.

End merge_facts.

(** C6. Merging the same (identity, label) a second time changes nothing;
    a new identity is appended with the singleton set, and an identity that
    is present keeps its place and has the label added to its set. *)
Theorem merge_idempotent_union_insert (idx : index) (identity label : string) :
  merge (merge idx identity label) identity label = merge idx identity label
  /\ match PyDict.get identity idx with
     | None =>
         merge idx identity label = idx ++ [(identity, {[ label ]})]
         /\ PyDict.get identity (merge idx identity label) = Some {[ label ]}
     | Some actions =>
         merge idx identity label = PyDict.set identity (actions ∪ {[ label ]}) idx
         /\ PyDict.get identity (merge idx identity label)
            = Some (actions ∪ {[ label ]})
     end.
Proof.
  split; [apply merge_idem |].
  pose proof (get_merge_eq idx identity label) as Hget.
  pose proof (merge_as_set idx identity label) as Hset.
  destruct (PyDict.get identity idx) as [actions|] eqn:Hold; simpl in *.
  - done.
  - rewrite (left_id_L ∅ (∪)) in Hget, Hset. split; [|done].
    rewrite Hset. by apply PyDictFacts.set_fresh.
Qed.

Lemma merge_all_perm (pairs1 pairs2 : list (string * string))
    (identity : string) :
  pairs1 ≡ₚ pairs2 ->
  PyDict.get identity (merge_all [] pairs1) = PyDict.get identity (merge_all [] pairs2).
Proof.
  intros Hperm. rewrite !get_merge_all.
  by rewrite (labels_for_perm identity pairs1 pairs2 Hperm).
Qed.

(** C7. Two orderings of the same pairs, merged from the empty index, give
    every identity the same set of labels. *)
Theorem merge_order_independent (pairs1 pairs2 : list (string * string)) :
  pairs1 ≡ₚ pairs2 ->
  forall identity : string,
    PyDict.get identity (merge_all [] pairs1)
    = PyDict.get identity (merge_all [] pairs2).
Proof.
  intros Hperm identity. by apply merge_all_perm.
Qed.

Lemma merge_order_independent_witness :
  PyDict.get "A" (merge_all [] [("A", "x"); ("B", "z"); ("A", "y")])
  = PyDict.get "A" (merge_all [] [("A", "y"); ("A", "x"); ("B", "z")]).
Proof.
  apply (merge_order_independent
           [("A", "x"); ("B", "z"); ("A", "y")] [("A", "y"); ("A", "x"); ("B", "z")]).
  apply perm_trans with [("A", "x"); ("A", "y"); ("B", "z")].
  - apply perm_skip, perm_swap.
  - apply perm_swap.
Defined.

(** ** The identity normaliser *)

Lemma fix_arn_other (arn : string) :
  PyStr.startswith "arn:aws:sts::" arn = false -> fix_arn arn = arn.
Proof. unfold fix_arn. by intros ->. Qed.

Lemma fix_arn_rewrites (arn : string) :
  PyStr.startswith "arn:aws:sts::" arn = true ->
  fix_arn arn
  = PyStr.join "/" (take 2 (PyStr.split "/"
      (PyStr.replace "assumed-role" "role"
         (PyStr.replace "arn:aws:sts::" "arn:aws:iam::" arn)))).
Proof. unfold fix_arn. by intros ->. Qed.

Example fix_arn_session :
  fix_arn "arn:aws:sts::111122223333:assumed-role/Deploy/sess-1"
  = "arn:aws:iam::111122223333:role/Deploy".
Proof. reflexivity. Qed.

Example fix_arn_user :
  fix_arn "arn:aws:iam::111122223333:user/alice" = "arn:aws:iam::111122223333:user/alice".
Proof. reflexivity. Qed.

Lemma replace_from_skip (old new : string) (n : nat) (s : string) :
  PyStr.replace_from old new n s = PyStr.replace_from old new 0 (drop_chars n s).
Proof.
  revert n. induction s as [|c s IH]; intros [|n]; try done.
  simpl. apply IH.
Qed.

Lemma replace_absent (old new s : string) :
  PyStr.contains old s = false -> PyStr.replace_from old new 0 s = s.
Proof.
  induction s as [|c s IH]; [done |].
  cbn [PyStr.contains PyStr.replace_from]. intros [Hs Hc]%orb_false_elim.
  by rewrite Hs, IH.
Qed.

Lemma replace_at_match (a : ascii) (old new s : string) :
  PyStr.startswith (String a old) s = true ->
  PyStr.replace (String a old) new s
  = new +:+ PyStr.replace (String a old) new (drop_chars (String.length (String a old)) s).
Proof.
  unfold PyStr.replace. destruct s as [|c s]; [done |]. intros H.
  cbn [PyStr.replace_from]. rewrite H, replace_from_skip.
  cbn [String.length drop_chars Nat.sub]. by rewrite Nat.sub_0_r.
Qed.

Lemma replace_once (a : ascii) (old new s : string) :
  at_most_once (String a old) s = true ->
  PyStr.replace (String a old) new s = replace_first (String a old) new s.
Proof.
  induction s as [|c s IH]; [done |].
  cbn [at_most_once replace_first].
  destruct (PyStr.startswith (String a old) (String c s)) eqn:Hs.
  - intros Hc%negb_true_iff. rewrite (replace_at_match _ _ _ _ Hs).
    unfold PyStr.replace. by rewrite (replace_absent _ _ _ Hc).
  - intros H. unfold PyStr.replace in *. cbn [PyStr.replace_from].
    by rewrite Hs, IH.
Qed.

(** Where neither pattern occurs a second time the script normalises as
    specified. *)
Lemma fix_arn_agrees (arn : string) :
  PyStr.contains "arn:aws:sts::" (drop_chars 13 arn) = false ->
  at_most_once "assumed-role" ("arn:aws:iam::" +:+ drop_chars 13 arn) = true ->
  fix_arn arn = fix_arn_as_specified arn.
Proof.
  intros Hprefix Hmarker. unfold fix_arn, fix_arn_as_specified.
  destruct (PyStr.startswith "arn:aws:sts::" arn) eqn:Hs; [|done].
  rewrite (replace_at_match _ _ _ _ Hs).
  change (String.length "arn:aws:sts::") with 13.
  unfold PyStr.replace at 2. rewrite (replace_absent _ _ _ Hprefix).
  by rewrite (replace_once _ _ _ _ Hmarker).
Qed.

(** C2. On the session ARN of a role whose name contains "assumed-role" the
    script rewrites the role name too: [replace] changes every occurrence,
    where the specification replaces the resource-type marker only. *)
Theorem fix_arn_rewrites_role_name :
  let arn := "arn:aws:sts::111122223333:assumed-role/my-assumed-role/sess-1" in
  PyStr.startswith "arn:aws:sts::" arn = true
  /\ fix_arn arn = "arn:aws:iam::111122223333:role/my-role"
  /\ fix_arn_as_specified arn = "arn:aws:iam::111122223333:role/my-assumed-role"
  /\ fix_arn arn <> fix_arn_as_specified arn.
Proof. repeat split. by vm_compute. Qed.

(** ** The key filter of [process_log_object] *)

Lemma downloads_process_log_object (w : world) (log_obj : ObjectRef) :
  downloads (ops (process_log_object w log_obj))
  = if skipped (Key log_obj) then [] else [Key log_obj].
Proof.
  unfold process_log_object. destruct (skipped (Key log_obj)); [done |].
  destruct (download_log_file w (Key log_obj)) as [content|e]; [|done].
  destruct (extract_actions_from_log_file w content) as [pairs e]. simpl.
  induction pairs as [|p pairs IH]; [done |]. simpl in *. done.
Qed.

Lemma skipped_spec (log_key : string) :
  skipped log_key = true
  <-> ~ occurs_in ".json.gz" log_key \/ occurs_in "digest" (PyStr.lower log_key).
Proof.
  unfold skipped, occurs_in.
  rewrite orb_true_iff, negb_true_iff, <- not_true_iff_false, !contains_spec. done.
Qed.

(** C3, as stated, fails: a key that has ".json.gz" inside but not at its
    end is downloaded, although it does not end in the suffix. *)
Lemma suffix_filter_counterexample :
  let log_obj := {| Key := "logs/a.json.gz.bak"; Size := 10 |} in
  skipped_as_specified (Key log_obj) = true
  /\ downloads (ops (process_log_object (sample_world [log_obj]) log_obj))
     = ["logs/a.json.gz.bak"].
Proof. split; reflexivity. Qed.

(** C3, amended. An object is passed over with no download request exactly
    when ".json.gz" does not occur in its key or "digest" occurs in the
    lower-cased key, and is requested once otherwise; the digest key of the
    specification is not requested, the archive key is, the text key is
    not. *)
Theorem object_filter (w : world) :
  (forall log_obj : ObjectRef,
     (downloads (ops (process_log_object w log_obj)) = []
      <-> ~ occurs_in ".json.gz" (Key log_obj)
          \/ occurs_in "digest" (PyStr.lower (Key log_obj)))
     /\ (downloads (ops (process_log_object w log_obj)) <> [] ->
         downloads (ops (process_log_object w log_obj)) = [Key log_obj]))
  /\ (forall size : Z,
        downloads (ops (process_log_object w
          {| Key := "logs/CloudTrail-Digest-2024.json.gz"; Size := size |})) = []
        /\ downloads (ops (process_log_object w
             {| Key := "logs/archive.json.gz"; Size := size |}))
           = ["logs/archive.json.gz"]
        /\ downloads (ops (process_log_object w
             {| Key := "logs/data.txt"; Size := size |})) = []).
Proof.
  split.
  - intros log_obj. rewrite downloads_process_log_object, <- skipped_spec.
    destruct (skipped (Key log_obj)); split; done.
  - intros size. by rewrite !downloads_process_log_object.
Qed.

(** ** Record extraction *)

Ltac py_cases :=
  repeat match goal with
    | |- context [bool_decide ?P] => case_bool_decide
    | |- context [match ?x with _ => _ end] =>
        match type of x with
        | json => destruct x
        | option _ => destruct x eqn:?
        | bool => destruct x eqn:?
        end; simpl
    | E : PyDict.get ?k ?f = _, H : context [PyDict.get ?k ?f] |- _ =>
        lazymatch H with E => fail | _ => rewrite E in H end
    | H : ~ is_Some (Some _) |- _ => exfalso; apply H; by eexists
    | H : is_Some None |- _ => by destruct H
    end.

(** A record yields a pair exactly when its fields spell one. *)
Lemma record_action_Some (record : json) (p : string * string) :
  record_action record = Ok (Some p) <-> pair_of record = Some p.
Proof.
  unfold record_action, pair_of, arn_of, field, bind, Py.contains, Py.getitem,
    Py.fix_arn, Py.split_dot_0, Py.add_str, before_dot.
  destruct record. all: simpl. all: py_cases.
  all: rewrite ?append_assoc; split; try discriminate; try done.
  all: try (intros [= <-]; done).
  destruct (PyDict.get "userIdentity" fields); [|done].
  exfalso. apply H. by eexists.
Qed.

Lemma record_action_None (record : json) :
  record_action record = Ok None -> pair_of record = None.
Proof.
  intros H. destruct (pair_of record) as [p|] eqn:Hp; [|done].
  apply record_action_Some in Hp. congruence.
Qed.

(** The loop merges the pairs of its records in order, up to the first
    record that raises. *)
Lemma scan_records_spec (records : list json) :
  match scan_records records with
  | (pairs, None) =>
      pairs = omap pair_of records
      /\ Forall (fun r => exists o, record_action r = Ok o) records
  | (pairs, Some e) =>
      exists before record rest,
        records = before ++ record :: rest
        /\ pairs = omap pair_of before
        /\ record_action record = Raise e
        /\ Forall (fun r => exists o, record_action r = Ok o) before
  end.
Proof.
  induction records as [|r records IH]; simpl; [done |].
  destruct (record_action r) as [[p|]|e] eqn:Hr.
  - pose proof Hr as Hp%record_action_Some.
    destruct (scan_records records) as [pairs [e|]].
    + destruct IH as (before & record & rest & -> & -> & He & Hok).
      exists (r :: before), record, rest. simpl. rewrite Hp.
      split_and!; try done. apply Forall_cons. split; [by eexists | done].
    + destruct IH as [-> Hok]. simpl. rewrite Hp. split; [done |].
      apply Forall_cons. split; [by eexists | done].
  - pose proof Hr as Hp%record_action_None.
    destruct (scan_records records) as [pairs [e|]].
    + destruct IH as (before & record & rest & -> & -> & He & Hok).
      exists (r :: before), record, rest. simpl. rewrite Hp.
      split_and!; try done. apply Forall_cons. split; [by eexists | done].
    + destruct IH as [-> Hok]. simpl. rewrite Hp. split; [done |].
      apply Forall_cons. split; [by eexists | done].
  - exists [], r, records. split_and!; try done.
Qed.

Lemma scan_records_app_raise (before rest : list json) (record : json)
    (pairs : list (string * string)) (e : exn) :
  scan_records before = (pairs, None) ->
  record_action record = Raise e ->
  scan_records (before ++ record :: rest) = (pairs, Some e).
Proof.
  revert pairs. induction before as [|r before IH]; intros pairs; simpl.
  - intros [= <-] ->. done.
  - destruct (record_action r) as [[p|]|e']; [| |done].
    + destruct (scan_records before) as [ps [e'|]]; [done |].
      intros [= <-] Hr. by rewrite (IH ps eq_refl Hr).
    + intros Hb Hr. by apply IH.
Qed.

Lemma extract_records_list (w : world) (content text : string)
    (fields : PyDict.dict json) (records : list json) :
  gzip_read_text w content = Ok text ->
  json_loads w text = Some (JObj fields) ->
  PyDict.get "Records" fields = Some (JArr records) ->
  extract_actions_from_log_file w content = scan_records records.
Proof.
  intros Hz Hj Hr. unfold extract_actions_from_log_file.
  rewrite Hz, Hj. simpl. by rewrite Hr.
Qed.




(** C10, as stated, fails: a record that has [userIdentity.arn] and lacks
    the event fields does raise, but [AttributeError] and not [KeyError]
    when the arn is not a string ([fix_arn] is called before the event
    fields are looked up), and likewise when [eventSource] is present but
    not a string and [eventName] is missing. *)
Lemma untyped_field_counterexample :
  let null_arn := JObj [("userIdentity", JObj [("arn", JNull)])] in
  let null_source :=
    JObj [("userIdentity", JObj [("arn", JStr "arn:aws:iam::1:user/bob")]);
          ("eventSource", JNull)] in
  (arn_of null_arn = Some JNull
   /\ field "eventSource" null_arn = None
   /\ record_action null_arn = Raise AttributeError)
  /\ (arn_of null_source = Some (JStr "arn:aws:iam::1:user/bob")
      /\ field "eventName" null_source = None
      /\ record_action null_source = Raise AttributeError).
Proof. repeat split. Qed.

(** C10, amended. A record that has [userIdentity.arn] but lacks
    [eventSource] or [eventName] is never passed over: it raises, which
    ends the loop over its document; the pairs of the records before it
    stay merged and no later record is looked at.  The exception is
    [KeyError] for the missing field when the arn is a string and
    [eventSource], if present, is a string; it is [AttributeError] when the
    arn is not a string, or when [eventSource] is present and not a
    string. *)
Theorem missing_event_field_raises (w : world) (content text : string)
    (doc fields user : PyDict.dict json) (raw : json)
    (before rest : list json) (pairs : list (string * string)) :
  gzip_read_text w content = Ok text ->
  json_loads w text = Some (JObj doc) ->
  PyDict.get "Records" doc = Some (JArr (before ++ JObj fields :: rest)) ->
  scan_records before = (pairs, None) ->
  PyDict.get "userIdentity" fields = Some (JObj user) ->
  PyDict.get "arn" user = Some raw ->
  PyDict.get "eventSource" fields = None \/ PyDict.get "eventName" fields = None ->
  let e :=
    match raw with
    | JStr _ =>
        match PyDict.get "eventSource" fields with
        | None => KeyError "eventSource"
        | Some (JStr _) => KeyError "eventName"
        | Some _ => AttributeError
        end
    | _ => AttributeError
    end in
  record_action (JObj fields) = Raise e
  /\ extract_actions_from_log_file w content = (pairs, Some e)
  /\ ((exists s, raw = JStr s) ->
      (forall v, PyDict.get "eventSource" fields = Some v -> exists source, v = JStr source) ->
      exists name,
        (name = "eventSource" \/ name = "eventName")
        /\ PyDict.get name fields = None
        /\ e = KeyError name).
Proof.
  intros Hz Hj Hr Hbefore Hui Harn Hmiss e.
  rewrite (extract_records_list w content text doc _ Hz Hj Hr).
  assert (record_action (JObj fields) = Raise e) as Hraise.
  { unfold e, record_action, bind, Py.contains, Py.getitem. rewrite Hui. simpl.
    rewrite Harn. simpl. destruct raw; simpl; try done.
    destruct (PyDict.get "eventSource" fields) as [[]|] eqn:Hs; simpl; try done.
    destruct Hmiss as [Hm|Hm]; [done |]. by rewrite Hm. }
  split_and!; [done | by apply scan_records_app_raise |].
  intros [s ->] Htyped. unfold e.
  destruct (PyDict.get "eventSource" fields) as [v|] eqn:Hs.
  - destruct (Htyped v eq_refl) as [source ->].
    destruct Hmiss as [Hm|Hm]; [done |].
    exists "eventName". split_and!; [by right | done | done].
  - exists "eventSource". split_and!; [by left | done | done].
Qed.

Lemma missing_event_field_raises_witness :
  record_action
    (JObj [("eventSource", JStr "s3.amazonaws.com");
           ("userIdentity", JObj [("arn", JStr "arn:aws:iam::1:user/bob")])])
  = Raise (KeyError "eventName")
  /\ extract_actions_from_log_file
       {| paginate := Ok [];
          download_file := fun key => Ok key;
          gzip_read_text := fun c => Ok c;
          json_loads := fun _ =>
            Some (JObj [("Records", JArr [alice_record;
              JObj [("eventSource", JStr "s3.amazonaws.com");
                    ("userIdentity", JObj [("arn", JStr "arn:aws:iam::1:user/bob")])];
              alice_record])]) |} "k"
     = ([("arn:aws:iam::1:user/alice", "s3 - GetObject")],
        Some (KeyError "eventName")).
Proof.
  pose proof (missing_event_field_raises
    {| paginate := Ok [];
       download_file := fun key => Ok key;
       gzip_read_text := fun c => Ok c;
       json_loads := fun _ =>
         Some (JObj [("Records", JArr [alice_record;
           JObj [("eventSource", JStr "s3.amazonaws.com");
                 ("userIdentity", JObj [("arn", JStr "arn:aws:iam::1:user/bob")])];
           alice_record])]) |}
    "k" "k" _
    [("eventSource", JStr "s3.amazonaws.com");
     ("userIdentity", JObj [("arn", JStr "arn:aws:iam::1:user/bob")])]
    [("arn", JStr "arn:aws:iam::1:user/bob")] (JStr "arn:aws:iam::1:user/bob")
    [alice_record] [alice_record] _
    eq_refl eq_refl eq_refl eq_refl eq_refl eq_refl (or_intror eq_refl)) as (H1 & H2 & _).
  split; [exact H1 | exact H2].
Defined.

(** ** The thread pool *)

Section pool_facts.
Implicit Types (st : pool) (all : list (list op)) (l : list (option (list op))).

Lemma remaining_take_step l i o rest :
  l !! i = Some (Some (o :: rest)) ->
  o :: concat (map remaining (<[i := Some rest]> l)) ≡ₚ concat (map remaining l).
Proof.
  revert i. induction l as [|x l IH]; intros [|i] H; simplify_eq/=; [done |].
  rewrite <- (IH i H). by rewrite Permutation_middle.
Qed.

Lemma remaining_finish l i :
  l !! i = Some (Some []) ->
  concat (map remaining (<[i := None]> l)) = concat (map remaining l).
Proof.
  revert i. induction l as [|x l IH]; intros [|i] H; simplify_eq/=; [done |].
  by rewrite (IH i H).
Qed.

Lemma merges_app (l1 l2 : list op) : merges (l1 ++ l2) = merges l1 ++ merges l2.
Proof. unfold merges. by rewrite flat_map_app. Qed.

Lemma downloads_app (l1 l2 : list op) : downloads (l1 ++ l2) = downloads l1 ++ downloads l2.
Proof. unfold downloads. by rewrite flat_map_app. Qed.

Lemma merges_perm (l1 l2 : list op) : l1 ≡ₚ l2 -> merges l1 ≡ₚ merges l2.
Proof.
  induction 1 as [|o l1 l2 _ IH|o1 o2 l|l1 l2 l3 _ IH1 _ IH2]; simpl.
  - done.
  - by rewrite IH.
  - destruct o1, o2; simpl; try done. apply perm_swap.
  - by etrans.
Qed.

Lemma downloads_perm (l1 l2 : list op) : l1 ≡ₚ l2 -> downloads l1 ≡ₚ downloads l2.
Proof.
  induction 1 as [|o l1 l2 _ IH|o1 o2 l|l1 l2 l3 _ IH1 _ IH2]; simpl.
  - done.
  - by rewrite IH.
  - destruct o1, o2; simpl; try done. apply perm_swap.
  - by etrans.
Qed.

Lemma inv_submit (tasks : list task) : pool_inv (map ops tasks) (submit tasks).
Proof.
  split; simpl.
  - by rewrite !length_map.
  - done.
  - by rewrite map_map.
  - intros i. split; [by intros ?%elem_of_nil |].
    rewrite list_lookup_fmap. by destruct (tasks !! i).
  - apply NoDup_nil_2.
Qed.

Lemma inv_step all st i : pool_inv all st -> pool_inv all (step i st).
Proof.
  intros [Hlen Hidx Htr Hfin Hnd]. unfold step.
  destruct (todo st !! i) as [[[|o rest]|]|] eqn:Hi; [| |by split..].
  - (* the task returns or raises *)
    assert (i < length (todo st)) as Hlt by (by eapply lookup_lt_Some).
    split; simpl.
    + by rewrite length_insert.
    + done.
    + by rewrite remaining_finish.
    + intros j. rewrite elem_of_app, list_elem_of_singleton, Hfin.
      destruct (decide (i = j)) as [<-|Hne].
      * rewrite list_lookup_insert_eq by done. tauto.
      * rewrite list_lookup_insert_ne by done. split; [intros [?|?]|]; by auto.
    + apply NoDup_app. split_and!; [done | | apply NoDup_singleton].
      intros j Hj ->%list_elem_of_singleton. apply Hfin in Hj. congruence.
  - (* the task takes a step *)
    assert (i < length (todo st)) as Hlt by (by eapply lookup_lt_Some).
    split; simpl.
    + by rewrite length_insert.
    + rewrite merges_app, merge_all_app, <- Hidx. by destruct o.
    + rewrite <- Htr, <- (remaining_take_step _ _ _ _ Hi), <- app_assoc. done.
    + intros j. rewrite Hfin. destruct (decide (i = j)) as [<-|Hne].
      * rewrite list_lookup_insert_eq by done. rewrite Hi. split; congruence.
      * by rewrite list_lookup_insert_ne.
    + done.
Qed.

Lemma inv_exec all sched st : pool_inv all st -> pool_inv all (exec sched st).
Proof.
  revert st. induction sched as [|i sched IH]; intros st H; [done |].
  apply IH. by apply inv_step.
Qed.

End pool_facts.

Section drain_facts.
Implicit Types (st : pool) (all : list (list op)).

Lemma inv_iter_step all st i n :
  pool_inv all st -> pool_inv all (Nat.iter n (step i) st).
Proof. intros H. induction n as [|n IH]; [done |]. simpl. by apply inv_step. Qed.

Lemma todo_step_length st i : length (todo (step i st)) = length (todo st).
Proof.
  unfold step. destruct (todo st !! i) as [[[|o rest]|]|]; simpl;
    by rewrite ?length_insert.
Qed.

Lemma todo_step_other st i j : i <> j -> todo (step i st) !! j = todo st !! j.
Proof.
  intros Hne. unfold step. destruct (todo st !! i) as [[[|o rest]|]|]; simpl;
    by rewrite ?list_lookup_insert_ne.
Qed.

Lemma todo_iter_step_other st i j n :
  i <> j -> todo (Nat.iter n (step i) st) !! j = todo st !! j.
Proof.
  intros Hne. induction n as [|n IH]; [done |]. simpl.
  by rewrite todo_step_other.
Qed.

Lemma todo_iter_step_length st i n :
  length (todo (Nat.iter n (step i) st)) = length (todo st).
Proof. induction n as [|n IH]; [done |]. simpl. by rewrite todo_step_length. Qed.

Lemma iter_step_finishes rest st i :
  todo st !! i = Some (Some rest) ->
  todo (Nat.iter (S (length rest)) (step i) st) !! i = Some None.
Proof.
  revert st. induction rest as [|o rest IH]; intros st Hi.
  - simpl. unfold step. rewrite Hi. simpl.
    apply list_lookup_insert_eq. by eapply lookup_lt_Some.
  - cbn [length]. rewrite Nat.iter_succ_r. apply IH.
    unfold step. rewrite Hi. simpl.
    apply list_lookup_insert_eq. by eapply lookup_lt_Some.
Qed.

Lemma inv_finish all st i : pool_inv all st -> pool_inv all (finish i st).
Proof.
  intros H. unfold finish. destruct (todo st !! i) as [[rest|]|]; [|done..].
  by apply inv_iter_step.
Qed.

Lemma todo_finish_length st i : length (todo (finish i st)) = length (todo st).
Proof.
  unfold finish. destruct (todo st !! i) as [[rest|]|]; [|done..].
  apply todo_iter_step_length.
Qed.

Lemma todo_finish st i :
  i < length (todo st) -> todo (finish i st) !! i = Some None.
Proof.
  intros Hlt. unfold finish.
  destruct (todo st !! i) as [[rest|]|] eqn:Hi.
  - by apply iter_step_finishes.
  - done.
  - apply lookup_ge_None in Hi. lia.
Qed.

Lemma todo_finish_other st i j : i <> j -> todo (finish i st) !! j = todo st !! j.
Proof.
  intros Hne. unfold finish. destruct (todo st !! i) as [[rest|]|]; [|done..].
  by apply todo_iter_step_other.
Qed.

Lemma todo_finish_all (order : list nat) st i :
  i < length (todo st) ->
  i ∈ order \/ todo st !! i = Some None ->
  todo (fold_left (fun s j => finish j s) order st) !! i = Some None.
Proof.
  revert st. induction order as [|j order IH]; intros st Hlt H; simpl.
  - destruct H as [?%elem_of_nil | H]; done.
  - apply IH; [by rewrite todo_finish_length |].
    destruct (decide (j = i)) as [->|Hne].
    + right. by apply todo_finish.
    + rewrite todo_finish_other by done.
      destruct H as [[?|?]%elem_of_cons | H]; [congruence | by left | by right].
Qed.

Lemma inv_finish_all all (order : list nat) st :
  pool_inv all st -> pool_inv all (fold_left (fun s j => finish j s) order st).
Proof.
  revert st. induction order as [|j order IH]; intros st H; [done |].
  apply IH. by apply inv_finish.
Qed.

Lemma inv_run_pool (sched : list nat) (tasks : list task) :
  pool_inv (map ops tasks) (run_pool sched tasks).
Proof. apply inv_finish_all, inv_exec, inv_submit. Qed.

(** After the pool has shut down every task is finished. *)
Lemma run_pool_all_done (sched : list nat) (tasks : list task) (i : nat) :
  i < length tasks -> todo (run_pool sched tasks) !! i = Some None.
Proof.
  intros Hlt. unfold run_pool, drain.
  pose proof (inv_exec _ sched _ (inv_submit tasks)) as [Hlen _ _ _ _].
  rewrite length_map in Hlen.
  apply todo_finish_all; [lia |]. left. apply elem_of_seq. lia.
Qed.

Lemma run_pool_todo (sched : list nat) (tasks : list task) :
  todo (run_pool sched tasks) = replicate (length tasks) None.
Proof.
  pose proof (inv_run_pool sched tasks) as [Hlen _ _ _ _].
  rewrite length_map in Hlen.
  apply list_eq. intros i. destruct (decide (i < length tasks)) as [Hlt|Hge].
  - rewrite run_pool_all_done by done. symmetry. by apply lookup_replicate_2.
  - rewrite !(proj2 (lookup_ge_None _ _)); [done | |lia].
    rewrite length_replicate. lia.
Qed.

Lemma remaining_all_done (n : nat) :
  concat (map remaining (replicate n None)) = [].
Proof. induction n as [|n IH]; [done |]. cbn. exact IH. Qed.

Lemma run_pool_trace (sched : list nat) (tasks : list task) :
  trace (run_pool sched tasks) ≡ₚ concat (map ops tasks).
Proof.
  pose proof (inv_run_pool sched tasks) as [_ _ Htr _ _].
  rewrite run_pool_todo, remaining_all_done, app_nil_r in Htr. done.
Qed.

Lemma run_pool_finished (sched : list nat) (tasks : list task) :
  finished (run_pool sched tasks) ≡ₚ seq 0 (length tasks).
Proof.
  pose proof (inv_run_pool sched tasks) as [_ _ _ Hfin Hnd].
  apply NoDup_Permutation; [done | apply NoDup_seq |].
  intros i. rewrite Hfin, run_pool_todo, elem_of_seq. split.
  - intros ?%lookup_lt_Some. rewrite length_replicate in *. lia.
  - intros ?. apply lookup_replicate_2. lia.
Qed.

Lemma run_pool_index (sched : list nat) (tasks : list task) (identity : string) :
  PyDict.get identity (ALL_ACTIONS (run_pool sched tasks))
  = PyDict.get identity (merge_all [] (merges (concat (map ops tasks)))).
Proof.
  pose proof (inv_run_pool sched tasks) as [_ Hidx _ _ _]. rewrite Hidx.
  apply merge_all_perm, merges_perm, run_pool_trace.
Qed.

End drain_facts.

(** ** The coordinator *)

Lemma first_exception_spec (tasks : list task) (completed : list nat) :
  match first_exception tasks completed with
  | Some e =>
      exists early i late t,
        completed = early ++ i :: late
        /\ tasks !! i = Some t /\ exc t = Some e
        /\ forall j t', j ∈ early -> tasks !! j = Some t' -> exc t' = None
  | None => forall j t, j ∈ completed -> tasks !! j = Some t -> exc t = None
  end.
Proof.
  induction completed as [|i completed IH]; simpl.
  - by intros j t ?%elem_of_nil.
  - destruct (tasks !! i) as [[ops_i [e|]]|] eqn:Hi.
    + exists [], i, completed, {| ops := ops_i; exc := Some e |}.
      split_and!; try done. by intros j t' ?%elem_of_nil.
    + destruct (first_exception tasks completed) as [e|].
      * destruct IH as (early & k & late & t & -> & Hk & He & Hearly).
        exists (i :: early), k, late, t. split_and!; try done.
        intros j t' [->|Hj]%elem_of_cons Hj'; [|by eapply Hearly].
        rewrite Hi in Hj'. by simplify_eq.
      * intros j t [->|Hj]%elem_of_cons Hj'; [|by eapply IH].
        rewrite Hi in Hj'. by simplify_eq.
    + destruct (first_exception tasks completed) as [e|].
      * destruct IH as (early & k & late & t & -> & Hk & He & Hearly).
        exists (i :: early), k, late, t. split_and!; try done.
        intros j t' [->|Hj]%elem_of_cons Hj'; [|by eapply Hearly]. congruence.
      * intros j t [->|Hj]%elem_of_cons Hj'; [congruence | by eapply IH].
Qed.

Lemma as_completed_spec (k : nat) (order finished : list nat) :
  NoDup finished ->
  exists first,
    as_completed k order finished = first ++ drop k finished
    /\ first ≡ₚ take k finished.
Proof.
  intros Hnd. unfold as_completed.
  set (done := take k finished).
  set (first := filter (fun i => i ∈ done) (remove_dups order)).
  exists (first ++ filter (fun i => i ∉ first) done).
  split; [by rewrite <- app_assoc |].
  assert (NoDup done) as Hdone.
  { unfold done. eapply sublist_NoDup; [done | apply sublist_take]. }
  apply NoDup_Permutation; [|done |].
  - apply NoDup_app. split_and!.
    + apply NoDup_filter, NoDup_remove_dups.
    + intros i Hi [Hni _]%list_elem_of_filter. done.
    + by apply NoDup_filter.
  - intros i. rewrite elem_of_app, list_elem_of_filter. split.
    + intros [Hi | [_ Hi]]; [|done]. by apply list_elem_of_filter in Hi as [Hi _].
    + intros Hi. destruct (decide (i ∈ first)) as [Hf|Hf]; [by left | by right].
Qed.

Lemma as_completed_perm (k : nat) (order finished : list nat) :
  NoDup finished -> as_completed k order finished ≡ₚ finished.
Proof.
  intros Hnd. destruct (as_completed_spec k order finished Hnd) as (first & -> & ->).
  by rewrite take_drop.
Qed.

(** Every future is yielded once. *)
Lemma yielded_perm (t : timing) (tasks : list task) :
  yielded t tasks ≡ₚ seq 0 (length tasks).
Proof.
  unfold yielded. rewrite as_completed_perm; [apply run_pool_finished |].
  by destruct (inv_run_pool (steps t) tasks).
Qed.

Lemma main_listing_failure (w : world) (threads : Z) (filter_name : option string)
    (t : timing) (e : exn) :
  get_all_keys w = Raise e ->
  outcome (main w threads filter_name t) = Raise e
  /\ trace (workers (main w threads filter_name t)) = [].
Proof. intros H. unfold main. by rewrite H. Qed.

Lemma main_no_pool (w : world) (threads : Z) (filter_name : option string)
    (t : timing) (logs_list : list ObjectRef) :
  get_all_keys w = Ok logs_list ->
  (threads <= 0)%Z ->
  outcome (main w threads filter_name t) = Raise ValueError
  /\ trace (workers (main w threads filter_name t)) = [].
Proof.
  intros H Hthreads. unfold main. rewrite H.
  by rewrite (proj2 (Z.leb_le threads 0) Hthreads).
Qed.

Lemma main_workers (w : world) (threads : Z) (filter_name : option string)
    (t : timing) (logs_list : list ObjectRef) :
  get_all_keys w = Ok logs_list ->
  (0 < threads)%Z ->
  workers (main w threads filter_name t)
  = run_pool (steps t) (map (process_log_object w) logs_list).
Proof.
  intros H Hthreads. unfold main. rewrite H.
  rewrite (proj2 (Z.leb_gt threads 0) Hthreads).
  destruct (first_exception _ _); reflexivity.
Qed.

Lemma main_outcome (w : world) (threads : Z) (filter_name : option string)
    (t : timing) (logs_list : list ObjectRef) :
  get_all_keys w = Ok logs_list ->
  (0 < threads)%Z ->
  let tasks := map (process_log_object w) logs_list in
  outcome (main w threads filter_name t)
  = match first_exception tasks (yielded t tasks) with
    | Some e => Raise e
    | None =>
        Ok (fst (report filter_name
                   {| heap := [ALL_ACTIONS (run_pool (steps t) tasks)];
                      global_ALL_ACTIONS := 0 |}))
    end.
Proof.
  intros H Hthreads. unfold main, yielded. rewrite H.
  rewrite (proj2 (Z.leb_gt threads 0) Hthreads). simpl.
  destruct (first_exception _ _); reflexivity.
Qed.

(** A run that ends with a report had its listing delivered and a positive
    thread count. *)
Lemma main_ok_inv (w : world) (threads : Z) (filter_name : option string)
    (t : timing) (lines : list string) :
  outcome (main w threads filter_name t) = Ok lines ->
  (0 < threads)%Z /\ exists logs_list, get_all_keys w = Ok logs_list.
Proof.
  destruct (get_all_keys w) as [logs_list|e] eqn:Hlist.
  2: { intros H. by rewrite (proj1 (main_listing_failure _ _ _ _ _ Hlist)) in H. }
  destruct (Z_lt_le_dec 0 threads) as [Hpos|Hneg].
  - intros _. split; [done | by eexists].
  - intros H. by rewrite (proj1 (main_no_pool _ _ _ _ _ Hlist Hneg)) in H.
Qed.

(** With the pool built, a failed object makes [main] raise the exception
    of the first failed future that [as_completed] yields. *)
Lemma main_some_failure (w : world) (threads : Z) (filter_name : option string)
    (t : timing) (logs_list : list ObjectRef) :
  get_all_keys w = Ok logs_list ->
  (0 < threads)%Z ->
  (exists log_obj,
     log_obj ∈ logs_list /\ exc (process_log_object w log_obj) <> None) ->
  exists early i late log_obj e,
    yielded t (map (process_log_object w) logs_list) = early ++ i :: late
    /\ logs_list !! i = Some log_obj
    /\ exc (process_log_object w log_obj) = Some e
    /\ (forall j o, j ∈ early -> logs_list !! j = Some o ->
          exc (process_log_object w o) = None)
    /\ outcome (main w threads filter_name t) = Raise e.
Proof.
  intros Hlist Hthreads (log_obj & [i Hi]%list_elem_of_lookup & Hexc).
  rewrite (main_outcome _ _ _ _ _ Hlist Hthreads). cbv zeta.
  set (tasks := map (process_log_object w) logs_list).
  pose proof (first_exception_spec tasks (yielded t tasks)) as Hfirst.
  destruct (first_exception tasks (yielded t tasks)) as [e|].
  - destruct Hfirst as (early & k & late & tk & Hfin & Hk & He & Hearly).
    unfold tasks in Hk. rewrite list_lookup_fmap in Hk.
    destruct (logs_list !! k) as [o|] eqn:Hko; [|done]. simplify_eq/=.
    exists early, k, late, o, e. split_and!; try done.
    intros j o' Hj Hjo. apply (Hearly j _ Hj).
    unfold tasks. by rewrite list_lookup_fmap, Hjo.
  - exfalso. apply Hexc. apply (Hfirst i).
    + rewrite yielded_perm. unfold tasks. rewrite length_map. apply elem_of_seq.
      apply lookup_lt_Some in Hi. lia.
    + unfold tasks. by rewrite list_lookup_fmap, Hi.
Qed.

Lemma first_exception_all_ok (tasks : list task) (completed : list nat) :
  Forall (fun t => exc t = None) tasks -> first_exception tasks completed = None.
Proof.
  intros Hok. pose proof (first_exception_spec tasks completed) as Hspec.
  destruct (first_exception tasks completed) as [e|]; [|done].
  destruct Hspec as (early & i & late & t & _ & Hi & He & _).
  apply list_elem_of_lookup_2 in Hi.
  rewrite Forall_forall in Hok. by rewrite (Hok t Hi) in He.
Qed.

Lemma main_no_failure (w : world) (threads : Z) (filter_name : option string)
    (t : timing) (logs_list : list ObjectRef) :
  get_all_keys w = Ok logs_list ->
  (0 < threads)%Z ->
  (forall log_obj, log_obj ∈ logs_list ->
     exc (process_log_object w log_obj) = None) ->
  outcome (main w threads filter_name t)
  = Ok (fst (report filter_name
               {| heap := [ALL_ACTIONS (run_pool (steps t)
                                          (map (process_log_object w) logs_list))];
                  global_ALL_ACTIONS := 0 |})).
Proof.
  intros Hlist Hthreads Hnone.
  rewrite (main_outcome _ _ _ _ _ Hlist Hthreads). cbv zeta.
  rewrite first_exception_all_ok; [done |].
  apply Forall_fmap, Forall_forall. intros o Ho. by apply Hnone.
Qed.

(** C1, as stated, fails: with the listing delivered and one object that
    cannot be downloaded, [main] ends by raising that object's exception
    and prints no report, although the other objects were processed. *)
Lemma object_failure_counterexample :
  let listing := [ {| Key := "logs/a.json.gz"; Size := 1 |};
                   {| Key := "logs/missing.json.gz"; Size := 1 |};
                   {| Key := "logs/c.json.gz"; Size := 1 |} ] in
  let r := main (sample_world listing) 10 None (in_order []) in
  get_all_keys (sample_world listing) = Ok listing
  /\ outcome r = Raise (ClientError "404")
  /\ downloads (trace (workers r))
     = ["logs/a.json.gz"; "logs/missing.json.gz"; "logs/c.json.gz"]
  /\ finished (workers r) = [0; 1; 2].
Proof. repeat split. Qed.

(** C1, amended. When the listing fails its exception leaves [main] and no
    object is processed; when the listing is delivered and the thread
    count is not positive, the pool constructor raises [ValueError] and no
    object is processed either.  With a positive thread count every task
    runs to its end whatever the schedule: each step of each task is taken
    once and the index holds the merges of all of them.  A failure of an
    object is kept nowhere but in its future: if some object fails, [main]
    raises the exception of the first failed future in the order in which
    [as_completed] yields them (the futures already finished when it is
    entered in any order, then the others in completion order) and prints
    nothing; if none fails, it prints the report. *)
Theorem object_failure_propagates (w : world) (threads : Z)
    (filter_name : option string) (t : timing) :
  let r := main w threads filter_name t in
  match get_all_keys w with
  | Raise e => outcome r = Raise e /\ trace (workers r) = []
  | Ok logs_list =>
      if (threads <=? 0)%Z
      then outcome r = Raise ValueError /\ trace (workers r) = []
      else
        let tasks := map (process_log_object w) logs_list in
        todo (workers r) = replicate (length logs_list) None
        /\ finished (workers r) ≡ₚ seq 0 (length logs_list)
        /\ trace (workers r) ≡ₚ concat (map ops tasks)
        /\ (forall identity,
              PyDict.get identity (ALL_ACTIONS (workers r))
              = PyDict.get identity (merge_all [] (merges (concat (map ops tasks)))))
        /\ (exists first,
              yielded t tasks = first ++ drop (already_done t) (finished (workers r))
              /\ first ≡ₚ take (already_done t) (finished (workers r)))
        /\ ((exists log_obj,
               log_obj ∈ logs_list /\ exc (process_log_object w log_obj) <> None) ->
            exists early i late log_obj e,
              yielded t tasks = early ++ i :: late
              /\ logs_list !! i = Some log_obj
              /\ exc (process_log_object w log_obj) = Some e
              /\ (forall j o, j ∈ early -> logs_list !! j = Some o ->
                    exc (process_log_object w o) = None)
              /\ outcome r = Raise e)
        /\ ((forall log_obj, log_obj ∈ logs_list ->
               exc (process_log_object w log_obj) = None) ->
            exists lines, outcome r = Ok lines)
  end.
Proof.
  intros r. subst r. destruct (get_all_keys w) as [logs_list|e] eqn:Hlist.
  2: { by apply main_listing_failure. }
  destruct (Z.leb_spec threads 0) as [Hneg|Hpos].
  { by apply (main_no_pool _ _ _ _ logs_list). }
  intros tasks. rewrite (main_workers _ _ _ _ _ Hlist Hpos). fold tasks.
  assert (length tasks = length logs_list) as Hlen by apply length_map.
  split_and!.
  - by rewrite run_pool_todo, Hlen.
  - by rewrite run_pool_finished, Hlen.
  - apply run_pool_trace.
  - apply run_pool_index.
  - apply as_completed_spec. by destruct (inv_run_pool (steps t) tasks).
  - by apply main_some_failure.
  - intros Hnone. eexists. by apply main_no_failure.
Qed.




(** ** Where the entries of the index come from *)

Lemma merges_map_Merge (pairs : list (string * string)) :
  merges (map (fun p => Merge (fst p) (snd p)) pairs) = pairs.
Proof. induction pairs as [|[a b] pairs IH]; [done |]. simpl. by rewrite IH. Qed.

Lemma elem_of_merges (a b : string) (l : list op) :
  (a, b) ∈ merges l <-> Merge a b ∈ l.
Proof.
  unfold merges. rewrite list_elem_of_In, in_flat_map. split.
  - intros (o & Ho%list_elem_of_In & Hin). destruct o as [k|a' b']; simpl in Hin.
    + done.
    + destruct Hin as [[= <- <-]|[]]. done.
  - intros H. exists (Merge a b). split; [by apply list_elem_of_In | by left].
Qed.

(** A pair merged by a task is the pair of a record of its document. *)
Lemma process_log_object_merges (w : world) (log_obj : ObjectRef) (p : string * string) :
  p ∈ merges (ops (process_log_object w log_obj)) ->
  exists record, record ∈ records_of w log_obj /\ pair_of record = Some p.
Proof.
  unfold process_log_object, records_of, extract_actions_from_log_file.
  destruct (skipped (Key log_obj)); [by intros ?%elem_of_nil |].
  destruct (download_log_file w (Key log_obj)) as [content|e]; [|by intros ?%elem_of_nil].
  destruct (gzip_read_text w content) as [text|e]; [|by intros ?%elem_of_nil].
  destruct (json_loads w text) as [data|]; [|by intros ?%elem_of_nil].
  destruct (bind _ _) as [records|e]; [|by intros ?%elem_of_nil].
  pose proof (scan_records_spec records) as Hscan.
  destruct (scan_records records) as [pairs e]. simpl. rewrite merges_map_Merge.
  intros Hp. destruct e as [e|].
  - destruct Hscan as (before & record & rest & -> & -> & _).
    apply list_elem_of_omap in Hp as (r & Hr & Hpair).
    exists r. split; [|done]. apply elem_of_app. by left.
  - destruct Hscan as [-> _].
    apply list_elem_of_omap in Hp as (r & Hr & Hpair). by exists r.
Qed.

Lemma label_nonempty (service name : string) : service +:+ " - " +:+ name <> "".
Proof. by destruct service. Qed.

Lemma pool_inv_entries (w : world) (logs_list : list ObjectRef) (st : pool)
    (identity : string) (actions : gset string) :
  pool_inv (map ops (map (process_log_object w) logs_list)) st ->
  PyDict.get identity (ALL_ACTIONS st) = Some actions ->
  actions <> ∅
  /\ forall label, label ∈ actions ->
       label <> ""
       /\ exists log_obj record raw,
            log_obj ∈ logs_list
            /\ record ∈ records_of w log_obj
            /\ arn_of record = Some (JStr raw)
            /\ identity = fix_arn raw
            /\ record_action record = Ok (Some (identity, label)).
Proof.
  intros [_ Hidx Htr _ _]. rewrite Hidx, get_merge_all. simpl.
  case_decide as Hempty; [done |]. intros [= <-].
  rewrite (left_id_L ∅ (∪)). split; [done |].
  intros label Hlabel%elem_of_labels_for%elem_of_merges.
  assert (Merge identity label ∈ concat (map ops (map (process_log_object w) logs_list)))
    as Hin.
  { rewrite <- Htr. apply elem_of_app. by left. }
  apply list_elem_of_In, in_concat in Hin as (task_ops & Htask & Hop).
  apply in_map_iff in Htask as (t & <- & Ht).
  apply in_map_iff in Ht as (log_obj & <- & Hobj).
  apply list_elem_of_In, elem_of_merges, process_log_object_merges in Hop
    as (record & Hrec & Hpair).
  pose proof Hpair as Haction%record_action_Some.
  unfold pair_of in Hpair.
  destruct (arn_of record) as [[| | |raw| |]|] eqn:Harn; try done.
  destruct (field "eventSource" record) as [[| | |source| |]|]; try done.
  destruct (field "eventName" record) as [[| | |name| |]|]; try done.
  injection Hpair as <- <-. split; [apply label_nonempty |].
  exists log_obj, record, raw. split_and!; try done. by apply list_elem_of_In.
Qed.

Lemma finish_is_exec (i : nat) (st : pool) : exists sched, finish i st = exec sched st.
Proof.
  unfold finish. destruct (todo st !! i) as [[rest|]|]; [|by exists []..].
  generalize (S (length rest)). intros n. revert st.
  induction n as [|n IH]; intros st; [by exists [] |].
  rewrite Nat.iter_succ_r. destruct (IH (step i st)) as [sched ->].
  by exists (i :: sched).
Qed.

Lemma exec_app (s1 s2 : list nat) (st : pool) : exec (s1 ++ s2) st = exec s2 (exec s1 st).
Proof. apply fold_left_app. Qed.

(** The states the pool passes through while it drains are states of
    longer schedules. *)
Lemma run_pool_is_exec (sched : list nat) (tasks : list task) :
  exists sched', run_pool sched tasks = exec sched' (submit tasks).
Proof.
  unfold run_pool, drain. generalize (seq 0 (length (todo (exec sched (submit tasks))))).
  intros order. generalize sched. clear sched.
  induction order as [|i order IH]; intros sched; simpl; [by exists sched |].
  destruct (finish_is_exec i (exec sched (submit tasks))) as [s ->].
  rewrite <- exec_app. apply IH.
Qed.

(** C8, as stated, fails: the run over one document whose only record has
    the empty string as identity ends with an entry for "" in the index. *)
Lemma empty_identity_entry_counterexample :
  let log_obj := {| Key := "logs/anonymous.json.gz"; Size := 1 |} in
  let w := sample_world [log_obj] in
  let st := exec [0; 0; 0] (submit (map (process_log_object w) [log_obj])) in
  records_of w log_obj = [anonymous_record]
  /\ arn_of anonymous_record = Some (JStr "")
  /\ PyDict.get "" (ALL_ACTIONS st) = Some {[ "s3 - GetObject" ]}.
Proof. repeat split. Qed.

(** C8, amended. In every state the pool reaches, under every schedule,
    each entry of the index has a non-empty set of labels, each label is a
    non-empty string, and each label under an identity is the pair of a
    record of a downloaded and decoded document whose [userIdentity.arn] is
    a string, empty or not, that normalises to that identity; a record
    without [userIdentity.arn] never yields a pair. *)
Theorem index_invariant (w : world) (logs_list : list ObjectRef) (sched : list nat) :
  let st := exec sched (submit (map (process_log_object w) logs_list)) in
  (forall identity actions,
     PyDict.get identity (ALL_ACTIONS st) = Some actions ->
     actions <> ∅
     /\ forall label, label ∈ actions ->
          label <> ""
          /\ exists log_obj record raw,
               log_obj ∈ logs_list
               /\ record ∈ records_of w log_obj
               /\ arn_of record = Some (JStr raw)
               /\ identity = fix_arn raw
               /\ record_action record = Ok (Some (identity, label)))
  /\ (forall record, arn_of record = None ->
        forall p, record_action record <> Ok (Some p)).
Proof.
  intros st. split.
  - intros identity actions. apply pool_inv_entries.
    apply inv_exec, inv_submit.
  - intros record Harn p Hp%record_action_Some.
    unfold pair_of in Hp. by rewrite Harn in Hp.
Qed.

(** ** The report *)

Lemma py_sorted_spec (actions : gset string) :
  StronglySorted String.le (py_sorted actions)
  /\ NoDup (py_sorted actions)
  /\ forall a, a ∈ py_sorted actions <-> a ∈ actions.
Proof.
  unfold py_sorted. split_and!.
  - apply (StronglySorted_merge_sort String.le).
  - rewrite merge_sort_Permutation. apply NoDup_elements.
  - intros a. by rewrite merge_sort_Permutation, elem_of_elements.
Qed.

Lemma filter_loop (name : string) (items acc : index) :
  NoDup (PyDict.keys items) ->
  (forall k, k ∈ PyDict.keys items -> k ∉ PyDict.keys acc) ->
  fold_left
    (fun tmp item =>
       if PyStr.contains name (fst item)
       then PyDict.set (fst item) (snd item) tmp else tmp)
    items acc
  = acc ++ List.filter (fun item => PyStr.contains name (fst item)) items.
Proof.
  revert acc. induction items as [|[k v] items IH]; intros acc Hnd Hfresh; simpl.
  - by rewrite app_nil_r.
  - apply NoDup_cons in Hnd as [Hk Hnd]. simpl in *.
    destruct (PyStr.contains name k).
    + rewrite PyDictFacts.set_fresh.
      2: { apply PyDictFacts.get_None_keys, Hfresh. by left. }
      rewrite IH; [by rewrite <- app_assoc | done |].
      intros k' Hk'. unfold PyDict.keys. rewrite map_app, elem_of_app. simpl.
      intros [Hin | ->%list_elem_of_singleton]; [|done].
      eapply Hfresh; [|done]. by right.
    + apply IH; [done |]. intros k' Hk'. apply Hfresh. by right.
Qed.

Lemma contains_empty (s : string) : PyStr.contains "" s = true.
Proof. by destruct s. Qed.

Lemma filter_all_true {A : Type} (f : A -> bool) (l : list A) :
  (forall x, f x = true) -> List.filter f l = l.
Proof.
  intros H. induction l as [|x l IH]; [done |]. simpl. by rewrite H, IH.
Qed.

(** The dictionary the global name holds after lines 98-103. *)
Lemma deref_filter_by_name (target_name : option string) (idx : index) :
  PyDict.wf idx ->
  deref (filter_by_name target_name {| heap := [idx]; global_ALL_ACTIONS := 0 |})
  = match target_name with
    | Some name => List.filter (fun item => PyStr.contains name (fst item)) idx
    | None => idx
    end.
Proof.
  intros Hwf. unfold filter_by_name. destruct target_name as [[|c name]|]; simpl.
  - unfold deref. simpl. symmetry. apply filter_all_true.
    intros item. apply contains_empty.
  - unfold deref. simpl. rewrite filter_loop; [done | done |].
    intros k _. apply not_elem_of_nil.
  - done.
Qed.

Lemma print_entries (items : index) :
  flat_map print_entry items
  = flat_map
      (fun pair => ("Actions performed by " +:+ fst pair)
                   :: map (fun action => "- " +:+ action) (snd pair))
      (map (fun item => (fst item, py_sorted (snd item))) items).
Proof. induction items as [|item items IH]; [done |]. simpl. by rewrite IH. Qed.

(** C9, as stated, fails: the report with a filter rebinds the global name
    [ALL_ACTIONS] to the filtered dictionary, so the index the program
    holds afterwards has lost the identities that do not match. *)
Lemma report_rebinds_index_counterexample :
  let m := {| heap := [[("A", {[ "x"; "y" ]}); ("B", {[ "z" ]})]];
              global_ALL_ACTIONS := 0 |} in
  PyDict.keys (deref m) = ["A"; "B"]
  /\ PyDict.keys (deref (snd (report (Some "A") m))) = ["A"]
  /\ global_ALL_ACTIONS (snd (report (Some "A") m)) = 1.
Proof. repeat split. Qed.

(** C9, amended. For an index with the keys of a dictionary, the report
    shows the identities that contain the filter text, all of them when no
    filter is given, in the order of the index, each followed by its
    actions in ascending order without repetition.  The dictionary object
    that held the index is left as it was, but the global name
    [ALL_ACTIONS] is bound to a new dictionary that holds the matching
    entries only: after a report with a filter the index of the program is
    the filtered one; without a filter nothing changes. *)
Theorem report_filter (target_name : option string) (idx : index) :
  PyDict.wf idx ->
  let m := {| heap := [idx]; global_ALL_ACTIONS := 0 |} in
  let shown :=
    match target_name with
    | Some name => List.filter (fun item => PyStr.contains name (fst item)) idx
    | None => idx
    end in
  fst (report target_name m)
  = flat_map
      (fun pair => ("Actions performed by " +:+ fst pair)
                   :: map (fun action => "- " +:+ action) (snd pair))
      (map (fun item => (fst item, py_sorted (snd item))) shown)
  /\ (forall name identity,
        PyStr.contains name identity = true <-> occurs_in name identity)
  /\ (forall actions : gset string,
        StronglySorted String.le (py_sorted actions)
        /\ NoDup (py_sorted actions)
        /\ forall a, a ∈ py_sorted actions <-> a ∈ actions)
  /\ heap (snd (report target_name m)) !! 0 = Some idx
  /\ deref (snd (report target_name m)) = shown
  /\ (target_name = None -> snd (report target_name m) = m).
Proof.
  intros Hwf m shown. split_and!.
  - unfold report. cbn [fst]. unfold m. rewrite (deref_filter_by_name _ _ Hwf).
    apply print_entries.
  - intros name identity. apply contains_spec.
  - apply py_sorted_spec.
  - unfold report, filter_by_name. cbn [snd].
    by destruct (truthy target_name).
  - unfold report. cbn [snd]. by apply deref_filter_by_name.
  - by intros ->.
Qed.

Lemma report_filter_witness :
  fst (report (Some "A")
         {| heap := [[("A", {[ "y"; "x" ]}); ("B", {[ "z" ]})]];
            global_ALL_ACTIONS := 0 |})
  = ["Actions performed by A"; "- x"; "- y"].
Proof.
  assert (PyDict.wf [("A", ({[ "y"; "x" ]} : gset string)); ("B", {[ "z" ]})]) as Hwf.
  { unfold PyDict.wf. simpl. apply NoDup_cons. split.
    - by intros ?%list_elem_of_singleton.
    - apply NoDup_singleton. }
  destruct (report_filter (Some "A") _ Hwf) as [H _].
  refine (eq_trans H _). vm_compute. reflexivity.
Defined.

(** * Further properties of the script *)

(** ** The shape of normalised identities *)

Lemma replace_marker_after_iam (s : string) :
  PyStr.replace "assumed-role" "role" ("arn:aws:iam::" +:+ s)
  = "arn:aws:iam::" +:+ PyStr.replace "assumed-role" "role" s.
Proof. reflexivity. Qed.

Lemma split_after_iam (s : string) :
  PyStr.split "/" ("arn:aws:iam::" +:+ s)
  = match PyStr.split "/" s with
    | h :: t => ("arn:aws:iam::" +:+ h) :: t
    | [] => ["arn:aws:iam::"]
    end.
Proof.
  cbv [String.append]. cbn [PyStr.split Ascii.eqb Bool.eqb].
  by destruct (PyStr.split "/" s).
Qed.

(** On a session ARN the result begins with the IAM prefix. *)
Lemma fix_arn_sts (arn : string) :
  PyStr.startswith "arn:aws:sts::" arn = true ->
  exists tail,
    fix_arn arn = "arn:aws:iam::" +:+ tail
    /\ "arn:aws:iam::" +:+ tail
       = PyStr.join "/" (take 2 (PyStr.split "/"
           ("arn:aws:iam::" +:+ PyStr.replace "assumed-role" "role"
              (PyStr.replace "arn:aws:sts::" "arn:aws:iam::" (drop_chars 13 arn))))).
Proof.
  intros Hs. unfold fix_arn. rewrite Hs. cbv zeta.
  rewrite (replace_at_match _ _ _ _ Hs).
  change (String.length "arn:aws:sts::") with 13.
  rewrite replace_marker_after_iam, split_after_iam.
  pose proof (split_nonempty "/" (PyStr.replace "assumed-role" "role"
    (PyStr.replace "arn:aws:sts::" "arn:aws:iam::" (drop_chars 13 arn)))) as Hne.
  destruct (PyStr.split "/" _) as [|h [|h2 t]]; [done | |].
  - by exists h.
  - exists (h +:+ "/" +:+ h2). split; [|done].
    cbn [take PyStr.join]. by rewrite append_assoc.
Qed.

Lemma fix_arn_never_sts (arn : string) :
  PyStr.startswith "arn:aws:sts::" (fix_arn arn) = false.
Proof.
  destruct (PyStr.startswith "arn:aws:sts::" arn) eqn:Hs.
  - destruct (fix_arn_sts arn Hs) as (tail & -> & _). reflexivity.
  - by rewrite fix_arn_other.
Qed.

(** X1. Normalising twice is the same as normalising once: the result of
    [fix_arn] never begins with the token-service prefix, so a second call
    returns it unchanged. *)
Theorem fix_arn_idempotent (arn : string) :
  PyStr.startswith "arn:aws:sts::" (fix_arn arn) = false
  /\ fix_arn (fix_arn arn) = fix_arn arn.
Proof.
  split; [apply fix_arn_never_sts |]. apply fix_arn_other, fix_arn_never_sts.
Qed.

Lemma no_char_cons (sep c : ascii) (s : string) :
  no_char sep (String c s) -> c <> sep /\ no_char sep s.
Proof.
  intros H. split.
  - intros ->. by apply (H EmptyString s).
  - intros pre post ->. by apply (H (String c pre) post).
Qed.

Lemma split_pieces (sep : ascii) (s : string) :
  Forall (no_char sep) (PyStr.split sep s).
Proof.
  induction s as [|c s IH]; simpl.
  - apply Forall_singleton. intros [|? ?] post H; discriminate H.
  - destruct (Ascii.eqb_spec c sep) as [->|Hne].
    + apply Forall_cons. split; [|done]. intros [|? ?] post H; discriminate H.
    + pose proof (split_nonempty sep s) as Hs.
      destruct (PyStr.split sep s) as [|h t]; [done |].
      apply Forall_cons in IH as [Hh Ht]. apply Forall_cons. split; [|done].
      intros [|a pre] post H; inversion H; subst; [done |]. by eapply Hh.
Qed.

Lemma split_piece (sep : ascii) (s : string) :
  no_char sep s -> PyStr.split sep s = [s].
Proof.
  induction s as [|c s IH]; [done |].
  intros [Hc Hs]%no_char_cons. simpl.
  destruct (Ascii.eqb_spec c sep); [done |]. by rewrite IH.
Qed.

Lemma split_piece_sep (sep : ascii) (h rest : string) :
  no_char sep h ->
  PyStr.split sep (h +:+ String sep rest) = h :: PyStr.split sep rest.
Proof.
  induction h as [|c h IH].
  - intros _. change (EmptyString +:+ String sep rest) with (String sep rest).
    simpl. by rewrite Ascii.eqb_refl.
  - intros [Hc Hh]%no_char_cons.
    change (String c h +:+ String sep rest) with (String c (h +:+ String sep rest)).
    simpl. destruct (Ascii.eqb_spec c sep); [done |]. by rewrite IH.
Qed.

(** Splitting what [join] made of at most two pieces gives the pieces
    back. *)
Lemma split_join_take_2 (s : string) :
  PyStr.split "/" (PyStr.join "/" (take 2 (PyStr.split "/" s)))
  = take 2 (PyStr.split "/" s).
Proof.
  pose proof (split_pieces "/" s) as Hp. pose proof (split_nonempty "/" s) as Hne.
  destruct (PyStr.split "/" s) as [|h [|h2 t]]; [done | |].
  - apply Forall_inv in Hp. simpl. by apply split_piece.
  - apply Forall_cons in Hp as [Hh [Hh2 _]%Forall_cons].
    change (take 2 (h :: h2 :: t)) with [h; h2].
    change (PyStr.join "/" [h; h2]) with (h +:+ String "/"%char h2).
    rewrite split_piece_sep by done. by rewrite split_piece.
Qed.

(** X2. A session ARN is normalised to a string that begins with the IAM
    prefix and has at most two "/"-separated segments: the session name and
    anything after it are gone. *)
Theorem fix_arn_session_shape (arn : string) :
  PyStr.startswith "arn:aws:sts::" arn = true ->
  PyStr.startswith "arn:aws:iam::" (fix_arn arn) = true
  /\ length (PyStr.split "/" (fix_arn arn)) <= 2.
Proof.
  intros Hs. split.
  - destruct (fix_arn_sts arn Hs) as (tail & -> & _). reflexivity.
  - unfold fix_arn. rewrite Hs. cbv zeta. rewrite split_join_take_2.
    rewrite length_take. lia.
Qed.

Lemma fix_arn_session_shape_witness :
  PyStr.startswith "arn:aws:iam::"
    (fix_arn "arn:aws:sts::111122223333:assumed-role/Deploy/sess-1/extra") = true
  /\ length (PyStr.split "/"
       (fix_arn "arn:aws:sts::111122223333:assumed-role/Deploy/sess-1/extra")) <= 2.
Proof.
  apply (fix_arn_session_shape
           "arn:aws:sts::111122223333:assumed-role/Deploy/sess-1/extra").
  reflexivity.
Defined.

(** ** How the index evolves while the pool runs *)

Lemma merge_grows (idx : index) (arn action k : string) (actions : gset string) :
  PyDict.get k idx = Some actions ->
  exists actions',
    PyDict.get k (merge idx arn action) = Some actions' /\ actions ⊆ actions'.
Proof.
  intros Hk. destruct (decide (arn = k)) as [->|Hne].
  - rewrite get_merge_eq, Hk. simpl. eexists. split; [done | set_solver].
  - rewrite get_merge_ne by done. by exists actions.
Qed.

Lemma step_grows (i : nat) (st : pool) (k : string) (actions : gset string) :
  PyDict.get k (ALL_ACTIONS st) = Some actions ->
  exists actions',
    PyDict.get k (ALL_ACTIONS (step i st)) = Some actions' /\ actions ⊆ actions'.
Proof.
  intros Hk. unfold step.
  destruct (todo st !! i) as [[[|[key|arn action] rest]|]|]; simpl;
    try (by exists actions).
  by apply merge_grows.
Qed.

Lemma exec_grows (sched : list nat) (st : pool) (k : string) (actions : gset string) :
  PyDict.get k (ALL_ACTIONS st) = Some actions ->
  exists actions',
    PyDict.get k (ALL_ACTIONS (exec sched st)) = Some actions' /\ actions ⊆ actions'.
Proof.
  revert st actions. induction sched as [|i sched IH]; intros st actions Hk.
  - by exists actions.
  - destruct (step_grows i st k actions Hk) as (a1 & H1 & Hsub1).
    destruct (IH (step i st) a1 H1) as (a2 & H2 & Hsub2).
    exists a2. split; [done | set_solver].
Qed.

(** X3. The index only grows while the pool runs: whatever an identity
    holds after some steps it still holds after any further steps, for any
    tasks and any schedule; no entry is removed and no action set shrinks
    or is replaced by a smaller one. *)
Theorem index_only_grows (tasks : list task) (sched more : list nat)
    (identity : string) :
  match PyDict.get identity (ALL_ACTIONS (exec sched (submit tasks))) with
  | Some actions =>
      exists actions',
        PyDict.get identity (ALL_ACTIONS (exec (sched ++ more) (submit tasks)))
        = Some actions'
        /\ actions ⊆ actions'
  | None => True
  end.
Proof.
  destruct (PyDict.get identity (ALL_ACTIONS (exec sched (submit tasks))))
    as [actions|] eqn:Hk; [|done].
  rewrite exec_app. by apply exec_grows.
Qed.

Lemma keys_merge (idx : index) (arn action : string) :
  PyDict.keys (merge idx arn action)
  = if decide (arn ∈ PyDict.keys idx) then PyDict.keys idx
    else PyDict.keys idx ++ [arn].
Proof.
  rewrite merge_as_set. case_decide as Hin.
  - by apply PyDictFacts.keys_set_present.
  - apply PyDictFacts.get_None_keys in Hin.
    rewrite (PyDictFacts.set_fresh _ _ _ Hin).
    unfold PyDict.keys. by rewrite map_app.
Qed.

Lemma keys_step (i : nat) (st : pool) :
  PyDict.keys (ALL_ACTIONS st) `prefix_of` PyDict.keys (ALL_ACTIONS (step i st)).
Proof.
  unfold step.
  destruct (todo st !! i) as [[[|[key|arn action] rest]|]|]; simpl; try done.
  rewrite keys_merge. case_decide; [done |]. by apply prefix_app_r.
Qed.

Lemma keys_exec (sched : list nat) (st : pool) :
  PyDict.keys (ALL_ACTIONS st) `prefix_of` PyDict.keys (ALL_ACTIONS (exec sched st)).
Proof.
  revert st. induction sched as [|i sched IH]; intros st; [done |].
  etrans; [apply (keys_step i) | apply IH].
Qed.

Lemma pool_inv_wf (all : list (list op)) (st : pool) :
  pool_inv all st -> PyDict.wf (ALL_ACTIONS st).
Proof.
  intros [_ Hidx _ _ _]. rewrite Hidx. apply wf_merge_all.
  unfold PyDict.wf. apply NoDup_nil_2.
Qed.

(** X4. Identities are listed once and in first-seen order: in every state
    of the pool the keys of the index are distinct, and further steps only
    append new identities after the ones already there, which keep their
    positions.  This is the order in which the report prints them. *)
Theorem index_keys_first_seen (tasks : list task) (sched more : list nat) :
  NoDup (PyDict.keys (ALL_ACTIONS (exec sched (submit tasks))))
  /\ PyDict.keys (ALL_ACTIONS (exec sched (submit tasks)))
     `prefix_of` PyDict.keys (ALL_ACTIONS (exec (sched ++ more) (submit tasks)))
  /\ NoDup (PyDict.keys (ALL_ACTIONS (run_pool sched tasks))).
Proof.
  split_and!.
  - apply (pool_inv_wf (map ops tasks)), inv_exec, inv_submit.
  - rewrite exec_app. apply keys_exec.
  - apply (pool_inv_wf (map ops tasks)), inv_run_pool.
Qed.

(** ** What a whole run does *)

Lemma run_pool_holds (sched : list nat) (tasks : list task) (arn action : string) :
  (arn, action) ∈ merges (concat (map ops tasks)) ->
  exists actions,
    PyDict.get arn (ALL_ACTIONS (run_pool sched tasks)) = Some actions
    /\ action ∈ actions.
Proof.
  intros Hin%elem_of_labels_for. rewrite run_pool_index, get_merge_all. simpl.
  rewrite decide_False by set_solver. eexists. split; [done | set_solver].
Qed.

Lemma merges_concat_elem (tasks : list task) (t : task) (p : string * string) :
  t ∈ tasks -> p ∈ merges (ops t) -> p ∈ merges (concat (map ops tasks)).
Proof.
  intros Ht Hp. destruct p as [a b]. apply elem_of_merges in Hp.
  apply elem_of_merges, list_elem_of_In, in_concat. exists (ops t). split.
  - apply in_map. by apply list_elem_of_In.
  - by apply list_elem_of_In.
Qed.

(** A task that ends without exception has merged the pair of every record
    of its document. *)
Lemma process_log_object_complete (w : world) (log_obj : ObjectRef) :
  exc (process_log_object w log_obj) = None ->
  merges (ops (process_log_object w log_obj)) = omap pair_of (records_of w log_obj).
Proof.
  unfold process_log_object, records_of, extract_actions_from_log_file.
  destruct (skipped (Key log_obj)); [done |].
  destruct (download_log_file w (Key log_obj)) as [content|e]; [|done].
  destruct (gzip_read_text w content) as [text|e]; [|done].
  destruct (json_loads w text) as [data|]; [|done].
  destruct (bind _ _) as [records|e]; [|done].
  pose proof (scan_records_spec records) as Hscan.
  destruct (scan_records records) as [pairs [e|]]; [done |]. simpl.
  destruct Hscan as [-> _]. intros _. by rewrite merges_map_Merge.
Qed.

(** X5. No update is lost: when the listing is delivered and the thread
    count is positive, every pair a task merges is in the index when the
    pool has shut down, whatever the schedule and whether or not other
    objects, or the same object later on, fail; in particular every record
    of a document that is processed without exception has its label under
    its normalised identity. *)
Theorem no_merge_lost (w : world) (threads : Z) (filter_name : option string)
    (t : timing) (logs_list : list ObjectRef) (log_obj : ObjectRef) :
  get_all_keys w = Ok logs_list ->
  (0 < threads)%Z ->
  log_obj ∈ logs_list ->
  (forall arn action,
     Merge arn action ∈ ops (process_log_object w log_obj) ->
     exists actions,
       PyDict.get arn (ALL_ACTIONS (workers (main w threads filter_name t)))
       = Some actions
       /\ action ∈ actions)
  /\ (exc (process_log_object w log_obj) = None ->
      forall record raw source name,
        record ∈ records_of w log_obj ->
        arn_of record = Some (JStr raw) ->
        field "eventSource" record = Some (JStr source) ->
        field "eventName" record = Some (JStr name) ->
        exists actions,
          PyDict.get (fix_arn raw)
            (ALL_ACTIONS (workers (main w threads filter_name t)))
          = Some actions
          /\ before_dot source +:+ " - " +:+ name ∈ actions).
Proof.
  intros Hlist Hthreads Hobj. rewrite (main_workers _ _ _ _ _ Hlist Hthreads).
  assert (forall arn action,
            (arn, action) ∈ merges (ops (process_log_object w log_obj)) ->
            exists actions,
              PyDict.get arn
                (ALL_ACTIONS (run_pool (steps t) (map (process_log_object w) logs_list)))
              = Some actions /\ action ∈ actions) as Hheld.
  { intros arn action Hin. apply run_pool_holds.
    eapply merges_concat_elem; [|done]. by apply list_elem_of_fmap_2. }
  split.
  - intros arn action Hin%elem_of_merges. by apply Hheld.
  - intros Hok record raw source name Hrec Harn Hsource Hname. apply Hheld.
    rewrite (process_log_object_complete _ _ Hok).
    apply list_elem_of_omap. exists record. split; [done |].
    unfold pair_of. by rewrite Harn, Hsource, Hname.
Qed.

Lemma no_merge_lost_witness :
  exists actions,
    PyDict.get "arn:aws:iam::1:user/alice"
      (ALL_ACTIONS (workers (main
         (sample_world [ {| Key := "logs/missing.json.gz"; Size := 1 |};
                         {| Key := "logs/a.json.gz"; Size := 1 |} ])
         10 None (in_order [1; 0; 1]))))
    = Some actions
    /\ "s3 - GetObject" ∈ actions.
Proof.
  pose proof (no_merge_lost
    (sample_world [ {| Key := "logs/missing.json.gz"; Size := 1 |};
                    {| Key := "logs/a.json.gz"; Size := 1 |} ])
    10 None (in_order [1; 0; 1]) _ {| Key := "logs/a.json.gz"; Size := 1 |}
    eq_refl eq_refl) as [H _].
  { apply elem_of_cons. right. apply elem_of_cons. by left. }
  apply H. apply elem_of_cons. right. apply elem_of_cons. by left.
Defined.

Lemma downloads_tasks (w : world) (logs_list : list ObjectRef) :
  downloads (concat (map ops (map (process_log_object w) logs_list)))
  = map Key (List.filter (fun o => negb (skipped (Key o))) logs_list).
Proof.
  induction logs_list as [|o logs_list IH]; [done |]. simpl.
  rewrite downloads_app, downloads_process_log_object, IH.
  by destruct (skipped (Key o)).
Qed.

(** X6. Each eligible object is requested exactly once per run: when the
    listing is delivered and the thread count is positive, the download
    requests made by the time the pool has shut down are, in some order,
    the keys of the listed objects that pass the key filter, one request
    per listed object, under every schedule and even when [main] ends by
    raising the exception of an object; when the pool cannot be built for
    want of a positive thread count, no download is requested at all. *)
Theorem each_eligible_object_downloaded_once (w : world) (threads : Z)
    (filter_name : option string) (t : timing) (logs_list : list ObjectRef) :
  get_all_keys w = Ok logs_list ->
  downloads (trace (workers (main w threads filter_name t)))
  ≡ₚ if (threads <=? 0)%Z then []
     else map Key (List.filter (fun o => negb (skipped (Key o))) logs_list).
Proof.
  intros Hlist. destruct (Z.leb_spec threads 0) as [Hneg|Hpos].
  - by rewrite (proj2 (main_no_pool _ _ filter_name t _ Hlist Hneg)).
  - rewrite (main_workers _ _ _ _ _ Hlist Hpos), <- (downloads_tasks w).
    apply downloads_perm, run_pool_trace.
Qed.

Lemma each_eligible_object_downloaded_once_witness :
  downloads (trace (workers (main
    (sample_world [ {| Key := "logs/a.json.gz"; Size := 1 |};
                    {| Key := "logs/CloudTrail-Digest.json.gz"; Size := 1 |};
                    {| Key := "logs/missing.json.gz"; Size := 1 |} ])
    10 (Some "alice") (in_order [2; 0]))))
  ≡ₚ ["logs/a.json.gz"; "logs/missing.json.gz"].
Proof.
  apply (each_eligible_object_downloaded_once
    (sample_world [ {| Key := "logs/a.json.gz"; Size := 1 |};
                    {| Key := "logs/CloudTrail-Digest.json.gz"; Size := 1 |};
                    {| Key := "logs/missing.json.gz"; Size := 1 |} ])
    10 (Some "alice") (in_order [2; 0]) _ eq_refl).
Defined.

Lemma dict_items_perm (d1 d2 : index) :
  PyDict.wf d1 -> PyDict.wf d2 ->
  (forall k, PyDict.get k d1 = PyDict.get k d2) ->
  d1 ≡ₚ d2.
Proof.
  intros Hwf1 Hwf2 Hget.
  apply NoDup_Permutation.
  - by eapply (NoDup_fmap_1 fst).
  - by eapply (NoDup_fmap_1 fst).
  - intros [k v]. split; intros Hin.
    + apply PyDictFacts.get_Some_elem_of. rewrite <- Hget.
      by apply PyDictFacts.elem_of_get.
    + apply PyDictFacts.get_Some_elem_of. rewrite Hget.
      by apply PyDictFacts.elem_of_get.
Qed.

Lemma filter_perm {A : Type} (f : A -> bool) (l1 l2 : list A) :
  l1 ≡ₚ l2 -> List.filter f l1 ≡ₚ List.filter f l2.
Proof.
  induction 1 as [|x l1 l2 _ IH|x y l|l1 l2 l3 _ IH1 _ IH2]; simpl.
  - done.
  - destruct (f x); by rewrite IH.
  - destruct (f x), (f y); try done. apply perm_swap.
  - by etrans.
Qed.

Lemma flat_map_perm {A B : Type} (f : A -> list B) (l1 l2 : list A) :
  l1 ≡ₚ l2 -> flat_map f l1 ≡ₚ flat_map f l2.
Proof.
  induction 1 as [|x l1 l2 _ IH|x y l|l1 l2 l3 _ IH1 _ IH2]; simpl.
  - done.
  - by rewrite IH.
  - rewrite !app_assoc. by rewrite (Permutation_app_comm (f y) (f x)).
  - by etrans.
Qed.

Lemma report_lines (target_name : option string) (idx : index) :
  PyDict.wf idx ->
  fst (report target_name {| heap := [idx]; global_ALL_ACTIONS := 0 |})
  = flat_map print_entry
      match target_name with
      | Some name => List.filter (fun item => PyStr.contains name (fst item)) idx
      | None => idx
      end.
Proof. intros Hwf. unfold report. cbn [fst]. by rewrite deref_filter_by_name. Qed.

(** X7. The report does not depend on the schedule except for the order of
    its lines: two runs over the same world and filter that both end with a
    report print the same lines, each the same number of times. *)
Theorem report_schedule_independent (w : world) (threads1 threads2 : Z)
    (filter_name : option string) (t1 t2 : timing) (lines1 lines2 : list string) :
  outcome (main w threads1 filter_name t1) = Ok lines1 ->
  outcome (main w threads2 filter_name t2) = Ok lines2 ->
  lines1 ≡ₚ lines2.
Proof.
  intros Hok1 Hok2.
  destruct (main_ok_inv _ _ _ _ _ Hok1) as [Hpos1 [logs_list Hlist]].
  destruct (main_ok_inv _ _ _ _ _ Hok2) as [Hpos2 _].
  revert Hok1 Hok2.
  rewrite (main_outcome _ _ _ _ _ Hlist Hpos1), (main_outcome _ _ _ _ _ Hlist Hpos2).
  cbv zeta. set (tasks := map (process_log_object w) logs_list).
  destruct (first_exception tasks (yielded t1 tasks)); [done |].
  destruct (first_exception tasks (yielded t2 tasks)); [done |].
  intros [= <-] [= <-].
  pose proof (pool_inv_wf _ _ (inv_run_pool (steps t1) tasks)) as Hwf1.
  pose proof (pool_inv_wf _ _ (inv_run_pool (steps t2) tasks)) as Hwf2.
  rewrite !deref_filter_by_name by done.
  apply flat_map_perm.
  assert (ALL_ACTIONS (run_pool (steps t1) tasks)
          ≡ₚ ALL_ACTIONS (run_pool (steps t2) tasks)) as Hperm.
  { apply dict_items_perm; [done.. |]. intros k. by rewrite !run_pool_index. }
  destruct filter_name as [name|]; [by apply filter_perm | done].
Qed.

Lemma report_schedule_independent_witness :
  ["Actions performed by arn:aws:iam::1:user/alice"; "- s3 - GetObject";
   "Actions performed by "; "- s3 - GetObject"]
  ≡ₚ ["Actions performed by "; "- s3 - GetObject";
      "Actions performed by arn:aws:iam::1:user/alice"; "- s3 - GetObject"].
Proof.
  apply (report_schedule_independent
    (sample_world [ {| Key := "logs/a.json.gz"; Size := 1 |};
                    {| Key := "logs/anonymous.json.gz"; Size := 1 |} ])
    10 2 None (in_order []) (in_order [1; 1; 0])); vm_compute; reflexivity.
Defined.

(** X8. A listing without objects is not an error: when no page of the
    listing has contents and the thread count is positive, [main] requests
    no download, merges nothing and ends normally with an empty report,
    for every filter and schedule. *)
Theorem empty_listing (w : world) (threads : Z) (filter_name : option string)
    (t : timing) (pages : list (option (list ObjectRef))) :
  paginate w = Ok pages ->
  Forall (fun page => default [] page = []) pages ->
  (0 < threads)%Z ->
  outcome (main w threads filter_name t) = Ok []
  /\ trace (workers (main w threads filter_name t)) = []
  /\ ALL_ACTIONS (workers (main w threads filter_name t)) = [].
Proof.
  intros Hpages Hempty Hthreads.
  assert (get_all_keys w = Ok []) as Hlist.
  { unfold get_all_keys. rewrite Hpages. simpl. f_equal. clear Hpages.
    induction Hempty as [|page pages Hpage _ IH]; [done |].
    cbn [map concat]. rewrite Hpage. exact IH. }
  rewrite (main_workers _ _ _ _ _ Hlist Hthreads).
  rewrite (main_no_failure _ _ _ _ _ Hlist Hthreads)
    by (by intros o ?%elem_of_nil).
  simpl.
  assert (forall sched, exec sched (submit []) = submit []) as Hexec.
  { intros sched. induction sched as [|i sched IH]; [done |]. exact IH. }
  unfold run_pool. rewrite Hexec. split_and!; try done.
  unfold report, filter_by_name. by destruct (truthy filter_name).
Qed.

Lemma empty_listing_witness :
  outcome (main (sample_world []) 10 (Some "alice") (in_order [0; 3])) = Ok []
  /\ trace (workers (main (sample_world []) 10 (Some "alice") (in_order [0; 3]))) = []
  /\ ALL_ACTIONS (workers (main (sample_world []) 10 (Some "alice") (in_order [0; 3])))
     = [].
Proof.
  apply (empty_listing (sample_world []) 10 (Some "alice") (in_order [0; 3])
           [Some []] eq_refl); [|reflexivity].
  by apply Forall_singleton.
Defined.

(** ** Objects that contribute nothing *)



Lemma record_action_char (c : ascii) :
  record_action (JStr (String c EmptyString)) = Ok None.
Proof.
  unfold record_action, bind, Py.contains. cbn [PyStr.contains PyStr.startswith].
  by destruct (Ascii.eqb "u" c).
Qed.

Lemma scan_records_chars (s : string) : scan_records (Py.chars s) = ([], None).
Proof.
  induction s as [|c s IH]; [done |].
  cbn [Py.chars scan_records]. by rewrite record_action_char.
Qed.

(** X10. A [Records] entry that is not a list: when it is null, a boolean
    or a number the [for] loop raises [TypeError] and nothing is merged
    (unlike a missing [Records] key, which is passed over silently); when
    it is a string the loop runs over its characters, none of which is a
    record, so nothing is merged and nothing is raised. *)
Theorem records_not_a_list (w : world) (content text : string)
    (fields : PyDict.dict json) (records : json) :
  gzip_read_text w content = Ok text ->
  json_loads w text = Some (JObj fields) ->
  PyDict.get "Records" fields = Some records ->
  match records with
  | JNull | JBool _ | JNum _ =>
      extract_actions_from_log_file w content = ([], Some TypeError)
  | JStr _ => extract_actions_from_log_file w content = ([], None)
  | JArr _ | JObj _ => True
  end.
Proof.
  intros Hz Hj Hr. unfold extract_actions_from_log_file.
  rewrite Hz, Hj. simpl. rewrite Hr.
  destruct records; simpl; try done. apply scan_records_chars.
Qed.

Lemma records_not_a_list_witness :
  extract_actions_from_log_file
    {| paginate := Ok [];
       download_file := fun key => Ok key;
       gzip_read_text := fun c => Ok c;
       json_loads := fun _ => Some (JObj [("Records", JNull)]) |} "k"
  = ([], Some TypeError).
Proof.
  apply (records_not_a_list
    {| paginate := Ok [];
       download_file := fun key => Ok key;
       gzip_read_text := fun c => Ok c;
       json_loads := fun _ => Some (JObj [("Records", JNull)]) |}
    "k" "k" [("Records", JNull)] JNull eq_refl eq_refl eq_refl).
Defined.

(** X11. Skipped objects cannot make a run fail: when every listed key is
    rejected by the key filter and the thread count is positive, [main]
    requests no download, whatever the store would have answered, and ends
    normally with an empty report. *)
Theorem all_objects_skipped (w : world) (threads : Z) (filter_name : option string)
    (t : timing) (logs_list : list ObjectRef) :
  get_all_keys w = Ok logs_list ->
  Forall (fun o => skipped (Key o) = true) logs_list ->
  (0 < threads)%Z ->
  outcome (main w threads filter_name t) = Ok []
  /\ trace (workers (main w threads filter_name t)) = []
  /\ ALL_ACTIONS (workers (main w threads filter_name t)) = [].
Proof.
  intros Hlist Hskip Hthreads.
  rewrite (main_workers _ _ _ _ _ Hlist Hthreads),
    (main_outcome _ _ _ _ _ Hlist Hthreads). cbv zeta.
  set (tasks := map (process_log_object w) logs_list).
  assert (Forall (fun t => t = {| ops := []; exc := None |}) tasks) as Htasks.
  { unfold tasks. apply Forall_fmap. eapply Forall_impl; [exact Hskip |].
    intros o Ho. simpl. unfold process_log_object. by rewrite Ho. }
  assert (trace (run_pool (steps t) tasks) = []) as Htrace.
  { apply Permutation_nil_r. rewrite run_pool_trace.
    clear -Htasks. induction Htasks as [|t tasks -> _ IH]; [done |]. exact IH. }
  assert (ALL_ACTIONS (run_pool (steps t) tasks) = []) as Hidx.
  { pose proof (inv_run_pool (steps t) tasks) as [_ Hidx _ _ _].
    by rewrite Hidx, Htrace. }
  rewrite first_exception_all_ok, Hidx.
  2: { eapply Forall_impl; [exact Htasks |]. by intros tk ->. }
  split_and!; try done.
  unfold report, filter_by_name. by destruct (truthy filter_name).
Qed.

Lemma all_objects_skipped_witness :
  outcome (main (sample_world [ {| Key := "logs/missing.txt"; Size := 1 |};
                                {| Key := "logs/Digest-missing.json.gz"; Size := 1 |} ])
             10 None (in_order [1; 0])) = Ok []
  /\ trace (workers (main
       (sample_world [ {| Key := "logs/missing.txt"; Size := 1 |};
                       {| Key := "logs/Digest-missing.json.gz"; Size := 1 |} ])
       10 None (in_order [1; 0]))) = []
  /\ ALL_ACTIONS (workers (main
       (sample_world [ {| Key := "logs/missing.txt"; Size := 1 |};
                       {| Key := "logs/Digest-missing.json.gz"; Size := 1 |} ])
       10 None (in_order [1; 0]))) = [].
Proof.
  apply (all_objects_skipped
    (sample_world [ {| Key := "logs/missing.txt"; Size := 1 |};
                    {| Key := "logs/Digest-missing.json.gz"; Size := 1 |} ])
    10 None (in_order [1; 0]) _ eq_refl); [|reflexivity].
  apply Forall_cons. split; [reflexivity |]. by apply Forall_singleton.
Defined.

(** ** The report and the identities it can show *)

Lemma sublist_flat_map_filter {A B : Type} (f : A -> list B) (p : A -> bool)
    (l : list A) :
  sublist (flat_map f (List.filter p l)) (flat_map f l).
Proof.
  induction l as [|x l IH]; [done |]. simpl. destruct (p x); simpl.
  - by apply sublist_app.
  - by apply sublist_inserts_l.
Qed.

(** X12. Filtering only leaves lines out: for an index with distinct keys,
    the lines printed with a filter name are a subsequence of the lines
    printed without one, so the filter adds no line and keeps the order of
    those it keeps. *)
Theorem filtered_report_sublist (target_name : option string) (idx : index) :
  PyDict.wf idx ->
  sublist
    (fst (report target_name {| heap := [idx]; global_ALL_ACTIONS := 0 |}))
    (fst (report None {| heap := [idx]; global_ALL_ACTIONS := 0 |})).
Proof.
  intros Hwf. rewrite !report_lines by done.
  destruct target_name as [name|]; [apply sublist_flat_map_filter | done].
Qed.

Lemma filtered_report_sublist_witness :
  sublist
    (fst (report (Some "B")
            {| heap := [[("A", {[ "x" ]}); ("B", {[ "z" ]}); ("AB", {[ "y" ]})]];
               global_ALL_ACTIONS := 0 |}))
    (fst (report None
            {| heap := [[("A", {[ "x" ]}); ("B", {[ "z" ]}); ("AB", {[ "y" ]})]];
               global_ALL_ACTIONS := 0 |})).
Proof.
  apply (filtered_report_sublist (Some "B")
           [("A", {[ "x" ]}); ("B", {[ "z" ]}); ("AB", {[ "y" ]})]).
  unfold PyDict.wf. simpl. apply (bool_decide_unpack _). by vm_compute.
Defined.

Lemma keys_get {V : Type} (k : string) (d : PyDict.dict V) :
  k ∈ PyDict.keys d -> exists v, PyDict.get k d = Some v.
Proof.
  intros Hin. destruct (PyDict.get k d) as [v|] eqn:Hget; [by exists v |].
  by apply PyDictFacts.get_None_keys in Hget.
Qed.

Lemma pool_inv_keys (w : world) (logs_list : list ObjectRef) (st : pool) :
  pool_inv (map ops (map (process_log_object w) logs_list)) st ->
  Forall (fun identity => PyStr.startswith "arn:aws:sts::" identity = false)
    (PyDict.keys (ALL_ACTIONS st)).
Proof.
  intros Hinv. apply Forall_forall. intros identity [actions Hget]%keys_get.
  destruct (pool_inv_entries w logs_list st identity actions Hinv Hget)
    as [Hne Hlabels].
  apply set_choose_L in Hne as [label Hlabel].
  destruct (Hlabels label Hlabel) as (_ & _ & _ & raw & _ & _ & _ & -> & _).
  apply fix_arn_never_sts.
Qed.

(** X13. The index never holds a session ARN: in every state of the pool,
    and when it has shut down, no identity listed in [ALL_ACTIONS] begins
    with the token-service prefix, so the report has no such header. *)
Theorem index_holds_no_session_arn (w : world) (logs_list : list ObjectRef)
    (sched : list nat) :
  let tasks := map (process_log_object w) logs_list in
  Forall (fun identity => PyStr.startswith "arn:aws:sts::" identity = false)
    (PyDict.keys (ALL_ACTIONS (exec sched (submit tasks))))
  /\ Forall (fun identity => PyStr.startswith "arn:aws:sts::" identity = false)
       (PyDict.keys (ALL_ACTIONS (run_pool sched tasks))).
Proof.
  intros tasks. split.
  - apply (pool_inv_keys w logs_list), inv_exec, inv_submit.
  - apply (pool_inv_keys w logs_list), inv_run_pool.
Qed.

(** ** The listing *)

(** X14. The listing loses nothing and invents nothing: when the paginator
    delivers its pages, [get_all_keys] returns the objects of the pages
    that have contents, page after page in page order, so an object is
    listed exactly when some page holds it and as often as the pages hold
    it; when a page request fails, its exception is all that is
    returned. *)
Theorem get_all_keys_pages (w : world) :
  match paginate w with
  | Raise e => get_all_keys w = Raise e
  | Ok pages =>
      exists logs_list,
        get_all_keys w = Ok logs_list
        /\ logs_list = concat (omap id pages)
        /\ (forall o, o ∈ logs_list <->
              exists contents, Some contents ∈ pages /\ o ∈ contents)
        /\ length logs_list = sum_list (map (fun page => length (default [] page)) pages)
  end.
Proof.
  unfold get_all_keys. destruct (paginate w) as [pages|e]; [|done]. simpl.
  eexists. split; [done |]. split_and!.
  - induction pages as [|[contents|] pages IH]; simpl; [done | by rewrite IH | done].
  - intros o. rewrite list_elem_of_In, in_concat. split.
    + intros (contents & Hc & Ho). apply in_map_iff in Hc as ([c|] & <- & Hp).
      * exists c. split; by apply list_elem_of_In.
      * done.
    + intros (contents & Hc & Ho). exists contents. split; [|by apply list_elem_of_In].
      apply in_map_iff. exists (Some contents). split; [done | by apply list_elem_of_In].
  - induction pages as [|page pages IH]; [done |]. simpl.
    by rewrite length_app, IH.
Qed.

(** ** Runs that end with a report *)

Lemma main_ok_no_exception (w : world) (threads : Z) (filter_name : option string)
    (t : timing) (logs_list : list ObjectRef) (lines : list string) :
  get_all_keys w = Ok logs_list ->
  outcome (main w threads filter_name t) = Ok lines ->
  Forall (fun tk => exc tk = None) (map (process_log_object w) logs_list).
Proof.
  intros Hlist Hok. destruct (main_ok_inv _ _ _ _ _ Hok) as [Hpos _].
  revert Hok. rewrite (main_outcome _ _ _ _ _ Hlist Hpos). cbv zeta.
  set (tasks := map (process_log_object w) logs_list).
  pose proof (first_exception_spec tasks (yielded t tasks)) as Hspec.
  destruct (first_exception tasks (yielded t tasks)); [done |].
  intros _. apply Forall_forall. intros tk [i Hi]%list_elem_of_lookup.
  apply (Hspec i); [|done].
  rewrite yielded_perm. apply elem_of_seq.
  apply lookup_lt_Some in Hi. lia.
Qed.

Lemma print_entry_lines (items : index) (k : string) (actions : gset string)
    (action : string) :
  (k, actions) ∈ items -> action ∈ actions ->
  "Actions performed by " +:+ k ∈ flat_map print_entry items
  /\ "- " +:+ action ∈ flat_map print_entry items.
Proof.
  intros Hin Ha. rewrite !list_elem_of_In, !in_flat_map.
  split; exists (k, actions); (split; [by apply list_elem_of_In |]);
    unfold print_entry; simpl.
  - by left.
  - right. apply in_map, list_elem_of_In. by apply py_sorted_spec.
Qed.

(** X15. A report is complete: when [main] ends with a report, every
    record of every listed eligible object that has [userIdentity.arn],
    [eventSource] and [eventName] as strings appears in it, with the header
    of its normalised identity and the line of its label, provided the
    identity contains the filter name when one is given. *)
Theorem report_complete (w : world) (threads : Z) (filter_name : option string)
    (t : timing) (logs_list : list ObjectRef) (lines : list string)
    (log_obj : ObjectRef) (record : json) (raw source name : string) :
  get_all_keys w = Ok logs_list ->
  outcome (main w threads filter_name t) = Ok lines ->
  log_obj ∈ logs_list ->
  record ∈ records_of w log_obj ->
  arn_of record = Some (JStr raw) ->
  field "eventSource" record = Some (JStr source) ->
  field "eventName" record = Some (JStr name) ->
  match filter_name with
  | Some text => PyStr.contains text (fix_arn raw) = true
  | None => True
  end ->
  "Actions performed by " +:+ fix_arn raw ∈ lines
  /\ "- " +:+ before_dot source +:+ " - " +:+ name ∈ lines.
Proof.
  intros Hlist Hok Hobj Hrec Harn Hsource Hname Hfilter.
  pose proof (main_ok_no_exception _ _ _ _ _ _ Hlist Hok) as Hnone.
  destruct (main_ok_inv _ _ _ _ _ Hok) as [Hpos _].
  rewrite Forall_forall in Hnone.
  assert (exc (process_log_object w log_obj) = None) as Hexc.
  { apply Hnone. by apply list_elem_of_fmap_2. }
  rewrite (main_outcome _ _ _ _ _ Hlist Hpos) in Hok. cbv zeta in Hok.
  set (tasks := map (process_log_object w) logs_list) in *.
  destruct (first_exception tasks (yielded t tasks)); [done |].
  injection Hok as <-.
  destruct (run_pool_holds (steps t) tasks (fix_arn raw)
              (before_dot source +:+ " - " +:+ name)) as (actions & Hget & Hin).
  { apply (merges_concat_elem tasks (process_log_object w log_obj)).
    - by apply list_elem_of_fmap_2.
    - rewrite (process_log_object_complete _ _ Hexc).
      apply list_elem_of_omap. exists record. split; [done |].
      unfold pair_of. by rewrite Harn, Hsource, Hname. }
  rewrite deref_filter_by_name
    by apply (pool_inv_wf _ _ (inv_run_pool (steps t) tasks)).
  apply (print_entry_lines _ _ actions); [|done].
  apply PyDictFacts.get_Some_elem_of in Hget.
  destruct filter_name as [text|]; [|done].
  apply list_elem_of_In, filter_In. split; [by apply list_elem_of_In | done].
Qed.

Lemma report_complete_witness :
  "Actions performed by arn:aws:iam::1:user/alice"
    ∈ ["Actions performed by arn:aws:iam::1:user/alice"; "- s3 - GetObject"]
  /\ "- s3 - GetObject"
    ∈ ["Actions performed by arn:aws:iam::1:user/alice"; "- s3 - GetObject"].
Proof.
  apply (report_complete
    (sample_world [ {| Key := "logs/a.json.gz"; Size := 1 |};
                    {| Key := "logs/anonymous.json.gz"; Size := 1 |} ])
    10 (Some "alice") (in_order [1; 0]) _ _ {| Key := "logs/a.json.gz"; Size := 1 |}
    alice_record "arn:aws:iam::1:user/alice" "s3.amazonaws.com" "GetObject"
    eq_refl); try reflexivity.
  - apply elem_of_cons. by left.
  - apply elem_of_cons. by left.
Defined.

(** X16. Whether a run ends with a report does not depend on the schedule
    or on the filter: if one run over a world ends with a report, no listed
    object fails, and every run over that world with the same thread count
    ends with a report. *)
Theorem success_schedule_independent (w : world) (threads : Z)
    (filter1 filter2 : option string) (t1 t2 : timing)
    (lines1 : list string) :
  outcome (main w threads filter1 t1) = Ok lines1 ->
  exists lines2, outcome (main w threads filter2 t2) = Ok lines2.
Proof.
  intros Hok. destruct (main_ok_inv _ _ _ _ _ Hok) as [Hpos [logs_list Hlist]].
  pose proof (main_ok_no_exception _ _ _ _ _ _ Hlist Hok) as Hnone.
  rewrite (main_outcome _ _ _ _ _ Hlist Hpos). cbv zeta.
  rewrite first_exception_all_ok by done. by eexists.
Qed.

Lemma success_schedule_independent_witness :
  exists lines2,
    outcome (main (sample_world [ {| Key := "logs/a.json.gz"; Size := 1 |} ])
               10 (Some "bob") (in_order [0; 0; 0; 0])) = Ok lines2.
Proof.
  apply (success_schedule_independent
    (sample_world [ {| Key := "logs/a.json.gz"; Size := 1 |} ])
    10 None (Some "bob") (in_order []) (in_order [0; 0; 0; 0])
    ["Actions performed by arn:aws:iam::1:user/alice"; "- s3 - GetObject"]).
  reflexivity.
Defined.
